(** * BHIT (TensorFlow notebook): likelihood engine and partition sampler

    A shallow embedding of [notebook/tf_bhit.ipynb].  The notebook builds a
    TensorFlow graph that scores a cluster assignment of variables (SNP rows
    and phenotype rows of one matrix) and runs a Metropolis-Hastings loop
    over assignments.

    Conventions of the embedding:
    - [tf.float64] values are idealised as real numbers ([R]); [tf.log] is
      [ln], [np.pi] is [PI], [tf.lgamma] is [lgamma] below;
    - [tf.int32] values are integers ([Z]) with the wrap-around written out;
    - a rank-2 tensor is the list of its rows together with its second
      dimension (a tensor without rows still has columns);
    - a TensorFlow kernel that raises (an index out of range in [tf.gather],
      a string that is no number) makes the computation return [None];
    - the random generators are inputs: the positions drawn by
      [np.random.choice] and the value of [tf.random_uniform];
    - labels fed to the [tf.int32] placeholders are below [TotalNum] and are
      taken to fit 32 bits. *)

From Stdlib Require Import List ZArith Lia Bool Arith String Ascii.
From Stdlib Require Import Decimal DecimalString DecimalPos DecimalZ.
From Stdlib Require Import Reals Lra ClassicalEpsilon.
From Stdlib Require Import Permutation FinFun.
Import ListNotations.

(** ** The error monad of a graph evaluation *)

Definition bind {A B : Type} (m : option A) (k : A -> option B) : option B :=
  match m with
  | Some a => k a
  | None => None
  end.

Notation "x <- m ;; k" := (bind m (fun x => k))
  (at level 61, m at next level, right associativity).

Fixpoint mapM {A B : Type} (f : A -> option B) (l : list A) : option (list B) :=
  match l with
  | [] => Some []
  | a :: l' => b <- f a ;; bs <- mapM f l' ;; Some (b :: bs)
  end.

(** ** Numeric substrate *)

Open Scope R_scope.

(** [tf.lgamma]: the logarithm of the absolute value of the Gamma function,
    as the limit of Gauss's product
    [Gamma x = lim n! n^x / (x (x+1) ... (x+n))].  At the poles 0, -1, -2, ...
    TensorFlow returns infinity; no value is fixed for them here, and no
    statement below reads one. *)
Definition lgamma_approx (x : R) (n : nat) : R :=
  ln (INR (fact n)) + x * ln (INR n)
  - sum_f_R0 (fun k => ln (Rabs (x + INR k))) n.

Definition lgamma (x : R) : R :=
  epsilon (inhabits 0) (fun l => Un_cv (lgamma_approx x) l).

(** [tf.reduce_sum], [tf.reduce_prod], [tf.reduce_max] over a vector. *)
Definition reduce_sum (v : list R) : R := fold_right Rplus 0 v.
Definition reduce_prod (v : list R) : R := fold_right Rmult 1 v.

(** On the empty vector TensorFlow's maximum is minus infinity; the only
    reader of that value, [func1], runs on a phenotype row, so the choice of
    [0] here is never observed. *)
Definition reduce_max (v : list R) : R :=
  match v with
  | [] => 0
  | a :: v' => fold_left Rmax v' a
  end.

(** Elementwise operation on two vectors of one shape. *)
Definition map2 {A B C : Type} (f : A -> B -> C) (u : list A) (v : list B) : list C :=
  map (fun p => f (fst p) (snd p)) (combine u v).

Close Scope R_scope.

(** [tf.int32] arithmetic. *)
Definition wrap32 (z : Z) : Z := ((z + 2 ^ 31) mod 2 ^ 32 - 2 ^ 31)%Z.
Definition sub32 (a b : Z) : Z := wrap32 (a - b).
Definition in_int32 (z : Z) : bool := ((- 2 ^ 31 <=? z) && (z <? 2 ^ 31))%Z.

(** ** Tensors of rank 2 *)

Record tensor (A : Type) : Type := mkTensor {
  ncols : nat;
  trows : list (list A)
}.

Arguments mkTensor {A} ncols trows.
Arguments ncols {A} t.
Arguments trows {A} t.

(** [tf.shape(t)[0]] and [tf.shape(t)[1]]. *)
Definition shape0 {A} (t : tensor A) : nat := List.length (trows t).
Definition shape1 {A} (t : tensor A) : nat := ncols t.

(** Column [j] of a tensor ([d] fills a row that is too short, which a
    well-shaped tensor does not have). *)
Definition column {A} (d : A) (t : tensor A) (j : nat) : list A :=
  map (fun r => nth j r d) (trows t).

Definition well_shaped {A} (t : tensor A) : Prop :=
  Forall (fun r => List.length r = ncols t) (trows t).

(** [tf.where(tf.equal(v, x))]: the positions of [v] that hold [x], in
    increasing order. *)
Definition where_equal {A} (eqb : A -> A -> bool) (v : list A) (x : A) : list nat :=
  map fst (filter (fun p => eqb (snd p) x) (combine (seq 0 (List.length v)) v)).

(** [tf.gather(params, indices)] on one index and on a vector of indices:
    an index outside [0, len) is an error. *)
Definition gather1 {A} (params : list A) (i : Z) : option A :=
  if (i <? 0)%Z then None else nth_error params (Z.to_nat i).

Definition gather {A} (params : list A) (idx : list nat) : option (list A) :=
  mapM (nth_error params) idx.

(** ** String kernels *)

Open Scope string_scope.

(** [numpy]'s [astype('str')] on an [int32]. *)
Definition str (z : Z) : string := NilZero.string_of_int (Z.to_int z).

(** [tf.string_to_number(s, out_type=tf.int32)]. *)
Definition string_to_number (s : string) : option Z :=
  d <- NilZero.int_of_string s ;;
  let z := Z.of_int d in
  if in_int32 z then Some z else None.

(** [tf.reduce_join(t, 0, separator=' ')]: one string per column. *)
Definition reduce_join (t : tensor string) : list string :=
  map (fun j => String.concat " " (column "" t j)) (seq 0 (ncols t)).

(** The fields of a string between the occurrences of [sep]. *)
Fixpoint fields (sep : ascii) (s : string) : list string :=
  match s with
  | EmptyString => [EmptyString]
  | String c s' =>
      if Ascii.eqb c sep then EmptyString :: fields sep s'
      else match fields sep s' with
           | f :: fs => String c f :: fs
           | [] => [String c EmptyString]
           end
  end.

Definition nonempty (s : string) : bool :=
  match s with EmptyString => false | _ => true end.

(** [tf.string_split(v, delimiter=' ')], one list of tokens per string;
    empty tokens are skipped. *)
Definition string_split (v : list string) : list (list string) :=
  map (fun s => filter nonempty (fields " "%char s)) v.

(** [tf.sparse_tensor_to_dense(sp, default_value)]: every row is filled up to
    the longest one. *)
Definition sparse_tensor_to_dense (sp : list (list string)) (default_value : string)
  : list (list string) :=
  let width := fold_right Nat.max 0%nat (map (@List.length string) sp) in
  map (fun r => (r ++ repeat default_value (width - List.length r))%list) sp.

(** [tf.unique(v)]: the distinct values in the order of their first
    occurrence; [tf.unique_with_counts] adds how often each occurs. *)
Fixpoint unique {A} (eqb : A -> A -> bool) (v : list A) : list A :=
  match v with
  | [] => []
  | a :: v' => a :: filter (fun b => negb (eqb b a)) (unique eqb v')
  end.

Definition count {A} (eqb : A -> A -> bool) (v : list A) (a : A) : nat :=
  List.length (filter (fun b => eqb b a) v).

Definition unique_with_counts {A} (eqb : A -> A -> bool) (v : list A)
  : list A * list nat :=
  let y := unique eqb v in (y, map (count eqb v) y).

Close Scope string_scope.

(** ** The data set and the constants of the graph *)

(** The matrix read by [init], already transposed and cut in two:
    [genotypes] is [dataset[:SNPNum].astype(np.int32)] and [phenotypes] is
    [dataset[SNPNum:TotalNum]]; [ObsNum] is the number of its columns. *)
Record Dataset : Type := mkDataset {
  SNPNum : nat;
  PhenoNum : nat;
  ObsNum : nat;
  MAF : R;
  genotypes : list (list Z);
  phenotypes : list (list R)
}.

Open Scope R_scope.

Section Graph.

Variable ds : Dataset.

Definition TotalNum : nat := (SNPNum ds + PhenoNum ds)%nat.

Definition Odds : list R :=
  [(1 - MAF ds) ^ 2; 2 * MAF ds * (1 - MAF ds); MAF ds ^ 2].

Definition GeneData : tensor string :=
  mkTensor (ObsNum ds) (map (map str) (genotypes ds)).

Definition PhenoData : tensor R := mkTensor (ObsNum ds) (phenotypes ds).

Definition ZERO : R := 0.
Definition KAPPA0 : R := 1.
Definition NU0 : R := INR (PhenoNum ds + 1).

(** [tf.reduce_mean(PhenoData, axis=1)]. *)
Definition MEANS : list R :=
  map (fun r => reduce_sum r / INR (shape1 PhenoData)) (trows PhenoData).

Definition MU0 : R := reduce_max MEANS + 2.

(** *** Continuous variates *)

(** [tf.reduce_mean(t)], over all the entries of the tensor. *)
Definition reduce_mean (t : tensor R) : R :=
  reduce_sum (List.concat (trows t)) / INR (shape0 t * shape1 t).

Definition func1 (contTensor : tensor R) : R :=
  let obsNum := INR (shape1 contTensor) in
  let means := reduce_mean contTensor in
  let sigma := 1 in
  let nuVar := NU0 * Rsqr sigma in
  let nuVar := nuVar
    + reduce_sum (map (fun y => Rsqr (y - means)) (List.concat (trows contTensor))) in
  let nuVar := nuVar
    + KAPPA0 * (obsNum / (KAPPA0 + obsNum) * Rsqr (means - MU0)) in
  let res := -1 * ln (2 * PI) * obsNum / 2
    + ln (KAPPA0 / (KAPPA0 + obsNum)) / 2 + lgamma ((NU0 + obsNum) / 2) in
  let res := res
    + (-1 * lgamma (NU0 / 2) + ln (NU0 * Rsqr sigma / 2) * NU0 / 2
       - ln (nuVar / 2) * (NU0 + obsNum) / 2) in
  res.

(** The source also defines [func2], the multivariate formula; no call of it
    exists: the second branch of the [tf.cond] is [ZERO]. *)
Definition logLikeCont (contTensor : tensor R) : R :=
  let varNum := shape0 contTensor in
  if Nat.eqb varNum 1 then func1 contTensor else ZERO.

(** *** Discrete variates *)

Definition logLikeDisc (discTensor : tensor string) : option R :=
  let logProb := 0 in
  let combined_tensor := reduce_join discTensor in
  let '(unique_tensor, N) := unique_with_counts String.eqb combined_tensor in
  let idx := string_split unique_tensor in
  let idx := sparse_tensor_to_dense idx "1" in
  idx <- mapM (mapM (fun s => z <- string_to_number s ;; Some (sub32 z 1))) idx ;;
  alpha <- mapM (mapM (gather1 Odds)) idx ;;
  let alpha := map reduce_prod alpha in
  let n_plus_alpha := map2 Rplus alpha (map INR N) in
  let logProb := logProb
    + reduce_sum (map2 Rminus (map lgamma n_plus_alpha) (map lgamma alpha)) in
  let logProb := logProb - lgamma (reduce_sum n_plus_alpha) in
  Some logProb.

(** *** Both kinds of variates *)

(** [tf.transpose] of a rank-2 tensor. *)
Definition transpose {A} (d : A) (t : tensor A) : tensor A :=
  mkTensor (shape0 t) (map (column d t) (seq 0 (ncols t))).

(** The columns of [contTensor] whose observation falls in category [elem]. *)
Definition select_fn (combined_tensor : list string) (contTensor : tensor R)
    (elem : string) : option R :=
  let at_elem := where_equal String.eqb combined_tensor elem in
  picked <- gather (trows (transpose 0 contTensor)) at_elem ;;
  let selected := transpose 0 (mkTensor (shape0 contTensor) picked) in
  Some (logLikeCont selected).

Definition logLikeDepe (discTensor : tensor string) (contTensor : tensor R)
  : option R :=
  let combined_tensor := reduce_join discTensor in
  let unique_tensor := unique String.eqb combined_tensor in
  logProb <- mapM (select_fn combined_tensor contTensor) unique_tensor ;;
  let logProb := reduce_sum logProb in
  disc <- logLikeDisc discTensor ;;
  Some (logProb + disc).

(** *** Dispatch *)

(** [tf.case(pred_fn, default, exclusive=False)]: the branch of the first
    predicate that holds, in the order of the table. *)
Fixpoint tf_case {A} (pred_fn : list (bool * (unit -> A))) (default : unit -> A) : A :=
  match pred_fn with
  | [] => default tt
  | (p, fn) :: rest => if p then fn tt else tf_case rest default
  end.

Definition calcProb (tensor1 : tensor string) (tensor2 : tensor R) : option R :=
  let shape1_0 := shape0 tensor1 in
  let shape2_0 := shape0 tensor2 in
  let pred_fn :=
    [ (Nat.ltb 0 shape1_0 && Nat.ltb 0 shape2_0,
        fun _ : unit => logLikeDepe tensor1 tensor2);
      (Nat.ltb 0 shape1_0, fun _ : unit => logLikeDisc tensor1);
      (Nat.ltb 0 shape2_0, fun _ : unit => Some (logLikeCont tensor2)) ] in
  tf_case pred_fn (fun _ : unit => Some ZERO).

(** *** The accept/reject node *)

(** [index[:SNPNum]] and [index[SNPNum:TotalNum]]. *)
Definition Dx (index1 : list Z) : list Z := firstn (SNPNum ds) index1.
Definition Cx (index1 : list Z) : list Z :=
  firstn (TotalNum - SNPNum ds) (skipn (SNPNum ds) index1).
Definition Dy (index2 : list Z) : list Z := firstn (SNPNum ds) index2.
Definition Cy (index2 : list Z) : list Z :=
  firstn (TotalNum - SNPNum ds) (skipn (SNPNum ds) index2).

(** [tf.squeeze(tf.gather(data, tf.where(tf.equal(part, var))), [1])]: the rows
    of [data] at the positions of [part] that carry label [var]. *)
Definition rows_of {A} (data : tensor A) (part : list Z) (var : Z) : option (tensor A) :=
  picked <- gather (trows data) (where_equal Z.eqb part var) ;;
  Some (mkTensor (ncols data) picked).

Definition Dxx (index1 : list Z) (var1 : Z) := rows_of GeneData (Dx index1) var1.
Definition Cxx (index1 : list Z) (var1 : Z) := rows_of PhenoData (Cx index1) var1.
Definition Dxy (index1 : list Z) (var2 : Z) := rows_of GeneData (Dx index1) var2.
Definition Cxy (index1 : list Z) (var2 : Z) := rows_of PhenoData (Cx index1) var2.
Definition Dyx (index2 : list Z) (var1 : Z) := rows_of GeneData (Dy index2) var1.
Definition Cyx (index2 : list Z) (var1 : Z) := rows_of PhenoData (Cy index2) var1.
Definition Dyy (index2 : list Z) (var2 : Z) := rows_of GeneData (Dy index2) var2.
Definition Cyy (index2 : list Z) (var2 : Z) := rows_of PhenoData (Cy index2) var2.

Definition pX (index1 : list Z) (var1 var2 : Z) : option R :=
  let pX := 0 in
  dxx <- Dxx index1 var1 ;; cxx <- Cxx index1 var1 ;;
  a <- calcProb dxx cxx ;;
  let pX := pX + a in
  dxy <- Dxy index1 var2 ;; cxy <- Cxy index1 var2 ;;
  b <- calcProb dxy cxy ;;
  Some (pX + b).

Definition pY (index2 : list Z) (var1 var2 : Z) : option R :=
  let pY := 0 in
  dyx <- Dyx index2 var1 ;; cyx <- Cyx index2 var1 ;;
  a <- calcProb dyx cyx ;;
  let pY := pY + a in
  dyy <- Dyy index2 var2 ;; cyy <- Cyy index2 var2 ;;
  b <- calcProb dyy cyy ;;
  Some (pY + b).

Definition Rleb (a b : R) : bool := if Rle_dec a b then true else false.

Definition accept (u px py : R) : bool := Rleb (ln u) (Rmin ZERO (py - px)).

(** [sess.run(res, {index1: Ix, index2: Iy, var1: x, var2: y})] with [u] the
    value drawn by [tf.random_uniform]. *)
Definition sess_run (index1 index2 : list Z) (var1 var2 : Z) (u : R)
  : option (list Z) :=
  px <- pX index1 var1 var2 ;;
  py <- pY index2 var1 var2 ;;
  Some (if accept u px py then index2 else index1).

End Graph.

Close Scope R_scope.

(** ** The sampler loop *)

(** What the generator yields for one pass of the proposal loop: the two
    positions of [np.random.choice(Ix, 2, False)] and the raw value behind
    [np.random.choice(k, 1)], reduced modulo the number of candidates. *)
Record draw : Type := mkDraw {
  pos1 : nat;
  pos2 : nat;
  pick : nat
}.

(** [np.arange(n)]. *)
Definition arange (n : nat) : list Z := map Z.of_nat (seq 0 n).

(** [np.random.choice(Ix, 2, False)]: the entries of [Ix] at two different
    positions; fewer than two entries raise. *)
Definition choice2 (Ix : list Z) (d : draw) : option (Z * Z) :=
  if (pos1 d <? List.length Ix)%nat && (pos2 d <? List.length Ix)%nat
     && negb (pos1 d =? pos2 d)%nat
  then Some (nth (pos1 d) Ix 0%Z, nth (pos2 d) Ix 0%Z)
  else None.

(** [np.sort] of a pair. *)
Definition sort2 (p : Z * Z) : Z * Z :=
  if (fst p <=? snd p)%Z then p else (snd p, fst p).

(** [np.random.choice(k, 1)]: an array of one entry of [k]. *)
Definition choice1 (k : list nat) (raw : nat) : list nat :=
  [nth (raw mod List.length k) k 0%nat].

(** [a[p] = y] for one position. *)
Fixpoint set_at (a : list Z) (p : nat) (y : Z) : list Z :=
  match a, p with
  | [], _ => []
  | _ :: a', O => y :: a'
  | b :: a', S p' => b :: set_at a' p' y
  end.

(** [Iy[k] = y] for an array [k] of positions (each one a position of [Iy]:
    they come from [np.where]). *)
Definition assign (Iy : list Z) (k : list nat) (y : Z) : list Z :=
  fold_left (fun a p => set_at a p y) k Iy.

(** [np.where(I == v)[0]]. *)
Definition np_where (I : list Z) (v : Z) : list nat := where_equal Z.eqb I v.

(** One pass of the body of [while True]: the labels [x], [y], the proposal
    [Iy], and whether the [break] is taken. *)
Definition attempt (Ix : list Z) (d : draw) : option (Z * Z * list Z * bool) :=
  xy <- choice2 Ix d ;;
  let '(x, y) := sort2 xy in
  let k := np_where Ix x in
  let k := if (1 <? List.length k)%nat then choice1 k (pick d) else k in
  let Iy := Ix in
  let Iy := assign Iy k y in
  let tmp1 := np_where Ix x in
  let tmp2 := np_where Iy y in
  Some (x, y, Iy,
        negb (List.length tmp1 =? 1)%nat || negb (List.length tmp2 =? 1)%nat).

(** The [while True] loop; every pass consumes one [draw]. *)
Fixpoint propose (Ix : list Z) (draws : list draw) : option (Z * Z * list Z) :=
  match draws with
  | [] => None
  | d :: draws' =>
      r <- attempt Ix d ;;
      let '(x, y, Iy, leave) := r in
      if leave then Some (x, y, Iy) else propose Ix draws'
  end.

(** The randomness of one iteration of the [for] loop. *)
Record randomness : Type := mkRandomness {
  draws : list draw;
  uniform : R
}.

Definition iteration (ds : Dataset) (Ix : list Z) (r : randomness) : option (list Z) :=
  p <- propose Ix (draws r) ;;
  let '(x, y, Iy) := p in
  sess_run ds Ix Iy x y (uniform r).

(** The [for] loop from assignment [Ix] on, one [randomness] per iteration. *)
Fixpoint iterate (ds : Dataset) (Ix : list Z) (rs : list randomness) : option (list Z) :=
  match rs with
  | [] => Some Ix
  | r :: rs' => Ix' <- iteration ds Ix r ;; iterate ds Ix' rs'
  end.

(** The whole session: [Ix = np.arange(TotalNum)], then [iterNum] iterations. *)
Definition sampler (ds : Dataset) (rs : list randomness) : option (list Z) :=
  iterate ds (arange (TotalNum ds)) rs.

(** ** Genotype matrices and their categories

    A selection of SNP rows is a matrix of [int32] codes rendered by [str];
    column [j] of that matrix is the composite category of observation [j]. *)

(** The string tensor of a matrix of codes with [n] columns. *)
Definition render (n : nat) (G : list (list Z)) : tensor string :=
  mkTensor n (map (map str) G).

(** The categories of the [n] observations, first observation first. *)
Definition categories (n : nat) (G : list (list Z)) : list (list Z) :=
  map (column 0%Z (mkTensor n G)) (seq 0 n).

Definition codes_eqb (a b : list Z) : bool :=
  if list_eq_dec Z.eq_dec a b then true else false.

(** The joined string of a category. *)
Definition key (c : list Z) : string := String.concat " " (map str c).

(** A token of a joined string: not empty and without a space. *)
Fixpoint spaceless (s : string) : bool :=
  match s with
  | EmptyString => true
  | String c s' => negb (Ascii.eqb c " ") && spaceless s'
  end.

Definition token (s : string) : bool := nonempty s && spaceless s.

(** What the graph of [logLikeDisc] computes from the categories: the
    pseudo-count of a category is gathered from [Odds] at [code - 1]. *)
Definition category_alpha (ds : Dataset) (c : list Z) : option R :=
  a <- mapM (fun z => gather1 (Odds ds) (sub32 z 1)) c ;; Some (reduce_prod a).

Definition disc_of_categories (ds : Dataset) (cs : list (list Z)) : option R :=
  let y := unique codes_eqb cs in
  alpha <- mapM (category_alpha ds) y ;;
  let n_plus_alpha := map2 Rplus alpha (map INR (map (count codes_eqb cs) y)) in
  Some (0 + reduce_sum (map2 Rminus (map lgamma n_plus_alpha) (map lgamma alpha))
        - lgamma (reduce_sum n_plus_alpha))%R.

(** The codes that index [Odds] without an error. *)
Definition code_ok (z : Z) : bool := ((1 <=? z) && (z <=? 3))%Z.

(** ** Well-formed inputs of the sampler *)

(** The matrix has [SNPNum] rows of codes 1, 2, 3 and [PhenoNum] rows of
    measurements, [ObsNum] entries each. *)
Definition well_formed (ds : Dataset) : bool :=
  (List.length (genotypes ds) =? SNPNum ds)%nat
  && (List.length (phenotypes ds) =? PhenoNum ds)%nat
  && forallb (fun r => (List.length r =? ObsNum ds)%nat) (genotypes ds)
  && forallb (fun r => (List.length r =? ObsNum ds)%nat) (phenotypes ds)
  && forallb (forallb code_ok) (genotypes ds).

(** A possible outcome of [np.random.choice(Ix, 2, False)] on [n] entries. *)
Definition valid_draw (n : nat) (d : draw) : bool :=
  (pos1 d <? n)%nat && (pos2 d <? n)%nat && negb (pos1 d =? pos2 d)%nat.

(** Randomness that serves an iteration: its first draw is an outcome. *)
Definition valid_randomness (n : nat) (r : randomness) : bool :=
  match draws r with
  | d :: _ => valid_draw n d
  | [] => false
  end.

(** An assignment over [n] variables: [n] labels, each in [0, n). *)
Definition labels_in_range (n : nat) (I : list Z) : Prop :=
  Forall (fun v => (0 <= v < Z.of_nat n)%Z) I.

Definition assignment_ok (n : nat) (I : list Z) : Prop :=
  List.length I = n /\ labels_in_range n I.

(** The number of positions of [I] that bear label [v]. *)
Definition bearers (I : list Z) (v : Z) : nat := List.length (np_where I v).

(** ** The specification's formulas

    Definitions that follow the words of the specification; the theorems
    below compare them with the graph. *)

Open Scope R_scope.

(** The specification's updated scale [nuVar] for one row [ys] of [n] values:
    [nu0 sigma0^2 + sum (y_i - ybar)^2 + kappa0 (n / (kappa0 + n)) (ybar - mu0)^2]. *)
Definition spec_nuVar (kappa0 sigma0 nu0 mu0 : R) (ys : list R) : R :=
  let n := INR (List.length ys) in
  let ybar := reduce_sum ys / n in
  nu0 * sigma0 ^ 2
  + reduce_sum (map (fun y => (y - ybar) ^ 2) ys)
  + kappa0 * (n / (kappa0 + n)) * (ybar - mu0) ^ 2.

(** The specification's Normal-Inverse-Gamma log marginal likelihood. *)
Definition spec_logLikeCont (kappa0 sigma0 nu0 mu0 : R) (ys : list R) : R :=
  let n := INR (List.length ys) in
  - n / 2 * ln (2 * PI)
  + / 2 * ln (kappa0 / (kappa0 + n))
  + lgamma ((nu0 + n) / 2) - lgamma (nu0 / 2)
  + nu0 / 2 * ln (nu0 * sigma0 ^ 2 / 2)
  - (nu0 + n) / 2 * ln (spec_nuVar kappa0 sigma0 nu0 mu0 ys / 2).

(** The specification's hyperparameters: [nu0 = traitCount + 1] and [mu0],
    the largest empirical mean of a trait, plus 2. *)
Definition spec_nu0 (ds : Dataset) : R := INR (PhenoNum ds) + 1.

Definition spec_mu0 (ds : Dataset) : R :=
  reduce_max (map (fun r => reduce_sum r / INR (List.length r)) (phenotypes ds)) + 2.

(** The specification's Dirichlet-multinomial formula over the distinct
    categories that occur: [sum_c (lgamma (n_c + alpha_c) - lgamma alpha_c)
    - lgamma (sum_c (n_c + alpha_c))], where [alpha_c] is the product over the
    rows of the odds of the code; [odds_of] tells which entry of
    [genotypeOdds] a code selects. *)
Definition spec_alpha (odds_of : Z -> R) (c : list Z) : R :=
  reduce_prod (map odds_of c).

Definition spec_logLikeDisc (odds_of : Z -> R) (cs : list (list Z)) : R :=
  let cats := unique codes_eqb cs in
  let n c := INR (count codes_eqb cs c) in
  reduce_sum (map (fun c => lgamma (n c + spec_alpha odds_of c)
                            - lgamma (spec_alpha odds_of c)) cats)
  - lgamma (reduce_sum (map (fun c => n c + spec_alpha odds_of c) cats)).

(** [genotypeOdds] indexed by the code itself, as the specification has it,
    and by the code less one. *)
Definition odds_at_code (ds : Dataset) (code : Z) : R :=
  nth (Z.to_nat code) (Odds ds) 0.

Definition odds_below_code (ds : Dataset) (code : Z) : R :=
  nth (Z.to_nat (code - 1)) (Odds ds) 0.

(** The cluster of label [v] under an assignment [a]: the variables [i] with
    [a[i] = v]; a variable below [SNPNum] is a variant, whose row is row [i]
    of [GeneData]; another one is a trait, whose row is row [i - SNPNum] of
    [PhenoData]. *)
Definition members (a : list Z) (v : Z) : list nat :=
  filter (fun i => Z.eqb (nth i a 0%Z) v) (seq 0 (List.length a)).

Definition variant_rows (ds : Dataset) (a : list Z) (v : Z) : tensor string :=
  mkTensor (ObsNum ds)
    (map (fun i => nth i (trows (GeneData ds)) [])
         (filter (fun i => (i <? SNPNum ds)%nat) (members a v))).

Definition trait_rows (ds : Dataset) (a : list Z) (v : Z) : tensor R :=
  mkTensor (ObsNum ds)
    (map (fun i => nth (i - SNPNum ds) (trows (PhenoData ds)) [])
         (filter (fun i => (SNPNum ds <=? i)%nat) (members a v))).

(** The specification's score of an assignment for the labels [x] and [y]:
    [calcProb] of the members of [x] plus [calcProb] of the members of [y]. *)
Definition cluster_score (ds : Dataset) (a : list Z) (v : Z) : option R :=
  calcProb ds (variant_rows ds a v) (trait_rows ds a v).

Definition spec_score (ds : Dataset) (a : list Z) (x y : Z) : option R :=
  sx <- cluster_score ds a x ;; sy <- cluster_score ds a y ;; Some (sx + sy).

(** The outcomes of [np.random.choice(Ix, 2, False)] on [n] entries, all
    equally likely: the ordered pairs of two different positions. *)
Definition outcomes (n : nat) : list (nat * nat) :=
  filter (fun ij => negb (fst ij =? snd ij)%nat) (list_prod (seq 0 n) (seq 0 n)).

(** The labels [x, y] that the loop takes from an outcome. *)
Definition labels_drawn (Ix : list Z) (ij : nat * nat) : Z * Z :=
  sort2 (nth (fst ij) Ix 0%Z, nth (snd ij) Ix 0%Z).

Definition yields (Ix : list Z) (x y : Z) (ij : nat * nat) : bool :=
  (fst (labels_drawn Ix ij) =? x)%Z && (snd (labels_drawn Ix ij) =? y)%Z.

(** The number of outcomes that give the labels [x, y]. *)
Definition weight (Ix : list Z) (x y : Z) : nat :=
  List.length (filter (yields Ix x y) (outcomes (List.length Ix))).

(** ** A small run

    Two SNPs and one trait over three observations, used to exercise the
    statements below. *)
Definition demo : Dataset :=
  mkDataset 2 1 3 (/ 2)
    [[1; 2; 1]; [3; 2; 3]]%Z
    [[1; 2; 3]].

Close Scope R_scope.

(** ** Observations and their order *)

(** The observations whose category is [c]. *)
Definition observations_of (cats : list (list Z)) (c : list Z) : list nat :=
  filter (fun j => codes_eqb (nth j cats []) c) (seq 0 (List.length cats)).

(** The values of one trait row at the observations [js]. *)
Definition values_at (ys : list R) (js : list nat) : list R :=
  map (fun j => nth j ys 0%R) js.

(** The matrix of codes whose observations are taken in the order [sigma]. *)
Definition reorder_observations (sigma : list nat) (G : list (list Z))
  : list (list Z) :=
  map (fun r => map (fun j => nth j r 0%Z) sigma) G.

(** * Properties *)

(** ** The kernels on the small run *)

Example reduce_join_demo :
  reduce_join (GeneData demo) = ["1 3"; "2 2"; "1 3"]%string.
Proof. reflexivity. Qed.

Example unique_with_counts_demo :
  unique_with_counts String.eqb (reduce_join (GeneData demo))
  = (["1 3"; "2 2"]%string, [2; 1]%nat).
Proof. reflexivity. Qed.

Example string_split_demo :
  string_split ["1 3"; "2 2"]%string = [["1"; "3"]; ["2"; "2"]]%string.
Proof. reflexivity. Qed.

Example string_to_number_demo :
  map string_to_number ["3"; "-12"; "x"; ""]%string
  = [Some 3%Z; Some (-12)%Z; None; None].
Proof. reflexivity. Qed.

Example sub32_wraps : sub32 (- 2 ^ 31) 1 = (2 ^ 31 - 1)%Z.
Proof. reflexivity. Qed.

Example gather1_demo :
  gather1 [10; 20; 30]%Z 2 = Some 30%Z /\
  gather1 [10; 20; 30]%Z 3 = None /\
  gather1 [10; 20; 30]%Z (-1) = None.
Proof. repeat split. Qed.

Example np_where_demo : np_where [1; 1; 2; 1]%Z 1 = [0; 1; 3]%nat.
Proof. reflexivity. Qed.

Example attempt_demo :
  attempt [1; 1; 2]%Z (mkDraw 2 1 3) = Some (1%Z, 2%Z, [1; 2; 2]%Z, true).
Proof. reflexivity. Qed.


(** ** Continuous variates *)

Open Scope R_scope.

(** C1: on a selection of continuous rows that has two or more rows, and on
    one that has no row, [logLikeCont] is exactly 0: only a single row reaches
    [func1], and the multivariate formula is never evaluated. *)
Theorem logLikeCont_zero_unless_single_row :
  forall (ds : Dataset) (contTensor : tensor R),
    (2 <= shape0 contTensor)%nat \/ shape0 contTensor = 0%nat ->
    logLikeCont ds contTensor = 0.
Proof.
  intros ds t Hrows. unfold logLikeCont.
  destruct (Nat.eqb_spec (shape0 t) 1) as [E | _].
  - lia.
  - reflexivity.
Qed.

Lemma concat_single {A} (l : list A) : List.concat [l] = l.
Proof. simpl. apply app_nil_r. Qed.

Lemma reduce_sum_map_ext {A} (f g : A -> R) (l : list A) :
  (forall a, f a = g a) -> reduce_sum (map f l) = reduce_sum (map g l).
Proof.
  intros E. induction l as [| a l IH]; simpl; [reflexivity | now rewrite E, IH].
Qed.

Lemma MU0_spec (ds : Dataset) :
  Forall (fun r => List.length r = ObsNum ds) (phenotypes ds) ->
  MU0 ds = spec_mu0 ds.
Proof.
  intros Hshape. unfold MU0, spec_mu0, MEANS, PhenoData, shape1. simpl.
  f_equal. f_equal. apply map_ext_in. intros r Hr.
  rewrite Forall_forall in Hshape. now rewrite (Hshape r Hr).
Qed.

(** C7: on one row of [n] values [logLikeCont] is the specification's
    Normal-Inverse-Gamma formula with [kappa0 = 1], [sigma0 = 1],
    [nu0 = traitCount + 1] and [mu0] the largest trait mean plus 2. *)
Theorem logLikeCont_single_row :
  forall (ds : Dataset) (ys : list R),
    Forall (fun r => List.length r = ObsNum ds) (phenotypes ds) ->
    logLikeCont ds (mkTensor (List.length ys) [ys])
    = spec_logLikeCont 1 1 (spec_nu0 ds) (spec_mu0 ds) ys.
Proof.
  intros ds ys Hshape.
  unfold logLikeCont, func1, reduce_mean, shape0, shape1. simpl trows. simpl ncols.
  simpl List.length. rewrite Nat.eqb_refl, concat_single, Nat.mul_1_l.
  rewrite (MU0_spec ds Hshape).
  unfold spec_logLikeCont, spec_nuVar, KAPPA0, NU0, spec_nu0.
  rewrite plus_INR. simpl (INR 1).
  set (n := INR (List.length ys)).
  set (ybar := reduce_sum ys / n).
  rewrite (reduce_sum_map_ext (fun y => Rsqr (y - ybar)) (fun y => (y - ybar) ^ 2))
    by (intros a; unfold Rsqr; ring).
  set (ss := reduce_sum (map (fun y => (y - ybar) ^ 2) ys)).
  replace ((INR (PhenoNum ds) + 1) * Rsqr 1 + ss
           + 1 * (n / (1 + n) * Rsqr (ybar - spec_mu0 ds)))
    with ((INR (PhenoNum ds) + 1) * 1 ^ 2 + ss
          + 1 * (n / (1 + n)) * (ybar - spec_mu0 ds) ^ 2)
    by (unfold Rsqr, Rdiv; ring).
  replace ((INR (PhenoNum ds) + 1) * Rsqr 1 / 2)
    with ((INR (PhenoNum ds) + 1) * 1 ^ 2 / 2) by (unfold Rsqr, Rdiv; ring).
  unfold Rdiv. ring.
Qed.

Close Scope R_scope.

(** ** Dispatch *)

Lemma calcProb_cases (ds : Dataset) (tensor1 : tensor string) (tensor2 : tensor R) :
  calcProb ds tensor1 tensor2 =
  match trows tensor1, trows tensor2 with
  | _ :: _, _ :: _ => logLikeDepe ds tensor1 tensor2
  | _ :: _, [] => logLikeDisc ds tensor1
  | [], _ :: _ => Some (logLikeCont ds tensor2)
  | [], [] => Some 0%R
  end.
Proof.
  destruct tensor1 as [n1 rows1], tensor2 as [n2 rows2].
  unfold calcProb, shape0. simpl trows.
  destruct rows1 as [| r1 rows1], rows2 as [| r2 rows2]; reflexivity.
Qed.

(** C2: [calcProb] looks only at whether each selection has a row: both have
    one, [logLikeDepe]; only the discrete one, [logLikeDisc]; only the
    continuous one, [logLikeCont]; neither, 0 (whatever the data set). *)
Theorem calcProb_dispatch :
  forall (ds : Dataset) (discRows : tensor string) (contRows : tensor R),
    calcProb ds discRows contRows =
    match trows discRows, trows contRows with
    | _ :: _, _ :: _ => logLikeDepe ds discRows contRows
    | _ :: _, [] => logLikeDisc ds discRows
    | [], _ :: _ => Some (logLikeCont ds contRows)
    | [], [] => Some 0%R
    end.
Proof. exact calcProb_cases. Qed.

(** ** Strings: splitting a joined string *)

Section Strings.

Open Scope string_scope.

Lemma fields_spaceless (x : string) :
  spaceless x = true -> fields " " x = [x].
Proof.
  induction x as [| c x IH]; simpl; [reflexivity |].
  intros H. apply andb_true_iff in H. destruct H as [Hc Hx].
  apply negb_true_iff in Hc. rewrite Hc, (IH Hx). reflexivity.
Qed.

Lemma fields_spaceless_sep (x s : string) :
  spaceless x = true ->
  fields " " (x ++ String " " s) = x :: fields " " s.
Proof.
  induction x as [| c x IH]; simpl; [reflexivity |].
  intros H. apply andb_true_iff in H. destruct H as [Hc Hx].
  apply negb_true_iff in Hc. rewrite Hc, (IH Hx). reflexivity.
Qed.

Lemma token_parts (s : string) :
  token s = true -> nonempty s = true /\ spaceless s = true.
Proof. unfold token. apply andb_true_iff. Qed.

Lemma split_joined (ts : list string) :
  Forall (fun s => token s = true) ts ->
  filter nonempty (fields " " (String.concat " " ts)) = ts.
Proof.
  induction ts as [| x ts IH]; intros Hts; [reflexivity |].
  inversion Hts as [| ? ? Hx Hts']; subst.
  destruct (token_parts _ Hx) as [Hne Hsp].
  destruct ts as [| y ts].
  - simpl. rewrite (fields_spaceless _ Hsp). simpl. now rewrite Hne.
  - change (String.concat " " (x :: y :: ts))
      with (x ++ String " " (String.concat " " (y :: ts))).
    rewrite (fields_spaceless_sep _ _ Hsp). simpl filter at 1.
    rewrite Hne. f_equal. now apply IH.
Qed.

Lemma spaceless_uint (d : uint) : spaceless (NilEmpty.string_of_uint d) = true.
Proof. induction d; simpl; auto. Qed.

Lemma nonempty_uint (d : uint) :
  d <> Nil -> nonempty (NilEmpty.string_of_uint d) = true.
Proof. destruct d; simpl; auto; congruence. Qed.

Lemma string_of_uint_nonnil (d : uint) :
  d <> Nil -> NilZero.string_of_uint d = NilEmpty.string_of_uint d.
Proof. destruct d; simpl; auto; congruence. Qed.

Lemma token_str (z : Z) : token (str z) = true.
Proof.
  unfold str, token. destruct z as [| p | p]; simpl Z.to_int.
  - reflexivity.
  - simpl. rewrite (string_of_uint_nonnil _ (Unsigned.to_uint_nonnil p)).
    now rewrite nonempty_uint, spaceless_uint by apply Unsigned.to_uint_nonnil.
  - simpl. rewrite (string_of_uint_nonnil _ (Unsigned.to_uint_nonnil p)).
    now rewrite spaceless_uint.
Qed.

Lemma to_int_proper (z : Z) : Z.to_int z <> Pos Nil /\ Z.to_int z <> Neg Nil.
Proof.
  destruct z as [| p | p]; simpl; split; try discriminate;
    intros [= E]; now apply (Unsigned.to_uint_nonnil p).
Qed.

Lemma int_of_string_str (z : Z) :
  NilZero.int_of_string (str z) = Some (Z.to_int z).
Proof.
  unfold str. destruct (to_int_proper z). now apply NilZero.isi.
Qed.

Lemma string_to_number_str (z : Z) :
  in_int32 z = true -> string_to_number (str z) = Some z.
Proof.
  intros Hz. unfold string_to_number. rewrite int_of_string_str. simpl.
  rewrite DecimalZ.of_to. now rewrite Hz.
Qed.

Lemma str_inj (a b : Z) : str a = str b -> a = b.
Proof.
  intros E. apply DecimalZ.to_int_inj.
  assert (H : Some (Z.to_int a) = Some (Z.to_int b))
    by now rewrite <- !int_of_string_str, E.
  now injection H.
Qed.

Lemma tokens_of_codes (c : list Z) :
  Forall (fun s => token s = true) (map str c).
Proof.
  apply Forall_forall. intros s Hs. apply in_map_iff in Hs.
  destruct Hs as (z & <- & _). apply token_str.
Qed.

Lemma split_key (c : list Z) :
  filter nonempty (fields " " (key c)) = map str c.
Proof. apply split_joined, tokens_of_codes. Qed.

Lemma map_str_inj (a b : list Z) : map str a = map str b -> a = b.
Proof.
  revert b. induction a as [| x a IH]; intros [| y b]; simpl; try discriminate.
  - reflexivity.
  - intros [= Exy Eab]. f_equal; [now apply str_inj | now apply IH].
Qed.

Lemma key_inj (a b : list Z) : key a = key b -> a = b.
Proof.
  intros E. apply map_str_inj. now rewrite <- !split_key, E.
Qed.

End Strings.

(** ** Lists: distinct values, counts, and the error monad *)

Section Lists.

Context {A B : Type}.
Variable eqbA : A -> A -> bool.
Variable eqbB : B -> B -> bool.
Hypothesis eqbA_spec : forall a a', eqbA a a' = true <-> a = a'.
Hypothesis eqbB_spec : forall b b', eqbB b b' = true <-> b = b'.
Variable f : A -> B.
Hypothesis f_inj : forall a a', f a = f a' -> a = a'.

Lemma eqb_map_inj (a a' : A) : eqbB (f a) (f a') = eqbA a a'.
Proof.
  destruct (eqbA a a') eqn:E.
  - apply eqbB_spec. f_equal. now apply eqbA_spec.
  - destruct (eqbB (f a) (f a')) eqn:E'; [| reflexivity].
    apply eqbB_spec, f_inj, eqbA_spec in E'. congruence.
Qed.

Lemma filter_map_inj (p : A -> bool) (q : B -> bool) (l : list A) :
  (forall a, q (f a) = p a) -> filter q (map f l) = map f (filter p l).
Proof.
  intros E. induction l as [| a l IH]; simpl; [reflexivity |].
  rewrite E. destruct (p a); simpl; now rewrite IH.
Qed.

Lemma unique_map_inj (l : list A) :
  unique eqbB (map f l) = map f (unique eqbA l).
Proof.
  induction l as [| a l IH]; simpl; [reflexivity |].
  f_equal. rewrite IH.
  apply filter_map_inj. intros a'. now rewrite eqb_map_inj.
Qed.

Lemma count_map_inj (l : list A) (a : A) :
  count eqbB (map f l) (f a) = count eqbA l a.
Proof.
  unfold count.
  rewrite (filter_map_inj (fun b => eqbA b a) (fun b => eqbB b (f a)))
    by (intros a'; apply eqb_map_inj).
  apply length_map.
Qed.

End Lists.

Lemma mapM_map {A B C} (g : B -> option C) (f : A -> B) (l : list A) :
  mapM g (map f l) = mapM (fun a => g (f a)) l.
Proof.
  induction l as [| a l IH]; simpl; [reflexivity | now rewrite IH].
Qed.

Lemma mapM_ext_in {A B} (f g : A -> option B) (l : list A) :
  (forall a, In a l -> f a = g a) -> mapM f l = mapM g l.
Proof.
  induction l as [| a l IH]; intros E; simpl; [reflexivity |].
  rewrite (E a) by now left. rewrite IH; [reflexivity |].
  intros a' Ha'. apply E. now right.
Qed.

Lemma mapM_total {A B} (f : A -> B) (l : list A) :
  mapM (fun a => Some (f a)) l = Some (map f l).
Proof.
  induction l as [| a l IH]; simpl; [reflexivity | now rewrite IH].
Qed.

Lemma mapM_bind_map {A B C} (f : A -> option B) (g : B -> C) (l : list A) :
  (bs <- mapM f l ;; Some (map g bs))
  = mapM (fun a => b <- f a ;; Some (g b)) l.
Proof.
  induction l as [| a l IH]; simpl; [reflexivity |].
  destruct (f a) as [b |]; simpl; [| reflexivity].
  rewrite <- IH. destruct (mapM f l); reflexivity.
Qed.

Lemma codes_eqb_spec (a b : list Z) : codes_eqb a b = true <-> a = b.
Proof.
  unfold codes_eqb. destruct (list_eq_dec Z.eq_dec a b); split; congruence.
Qed.

Lemma string_eqb_spec (a b : string) : String.eqb a b = true <-> a = b.
Proof. apply String.eqb_eq. Qed.

(** ** The discrete likelihood in terms of categories *)

Lemma unique_incl {A} (eqb : A -> A -> bool) (l : list A) (a : A) :
  In a (unique eqb l) -> In a l.
Proof.
  induction l as [| b l IH]; simpl; [tauto |].
  intros [E | H]; [now left | right].
  apply filter_In in H. now apply IH.
Qed.

Lemma column_render (n j : nat) (G : list (list Z)) :
  Forall (fun r => List.length r = n) G -> (j < n)%nat ->
  column ""%string (render n G) j = map str (column 0%Z (mkTensor n G) j).
Proof.
  intros Hshape Hj. unfold column, render. simpl trows.
  rewrite !map_map. apply map_ext_in. intros r Hr.
  rewrite Forall_forall in Hshape. specialize (Hshape r Hr).
  rewrite (nth_indep _ ""%string (str 0)) by (rewrite length_map; lia).
  apply map_nth.
Qed.

Lemma reduce_join_render (n : nat) (G : list (list Z)) :
  Forall (fun r => List.length r = n) G ->
  reduce_join (render n G) = map key (categories n G).
Proof.
  intros Hshape. unfold reduce_join, categories. simpl ncols.
  rewrite map_map. apply map_ext_in. intros j Hj. apply in_seq in Hj.
  unfold key. f_equal. apply column_render; [assumption | lia].
Qed.

Lemma category_length (n : nat) (G : list (list Z)) (c : list Z) :
  In c (categories n G) -> List.length c = List.length G.
Proof.
  unfold categories. intros H. apply in_map_iff in H.
  destruct H as (j & <- & _). unfold column. apply length_map.
Qed.

Lemma category_codes (P : Z -> Prop) (n : nat) (G : list (list Z)) :
  P 0%Z -> Forall (Forall P) G -> Forall (Forall P) (categories n G).
Proof.
  intros P0 HG. apply Forall_forall. intros c Hc.
  apply in_map_iff in Hc. destruct Hc as (j & <- & _).
  unfold column. simpl trows. apply Forall_forall. intros z Hz.
  apply in_map_iff in Hz. destruct Hz as (r & <- & Hr).
  rewrite Forall_forall in HG. specialize (HG r Hr).
  destruct (Nat.lt_ge_cases j (List.length r)) as [Hlt | Hge].
  - rewrite Forall_forall in HG. apply HG. now apply nth_In.
  - now rewrite nth_overflow.
Qed.

Lemma width_bound {A} (m : nat) (sp : list (list A)) :
  Forall (fun r => List.length r = m) sp ->
  (fold_right Nat.max 0 (map (@List.length A) sp) <= m)%nat.
Proof.
  induction 1 as [| r sp Hr _ IH]; simpl; lia.
Qed.

Lemma sparse_tensor_to_dense_full (m : nat) (sp : list (list string)) (d : string) :
  Forall (fun r => List.length r = m) sp ->
  sparse_tensor_to_dense sp d = sp.
Proof.
  intros Hsp. unfold sparse_tensor_to_dense.
  pose proof (width_bound m sp Hsp) as Hw.
  rewrite <- (map_id sp) at 2. apply map_ext_in. intros r Hr.
  rewrite Forall_forall in Hsp. rewrite (Hsp r Hr).
  replace (_ - m)%nat with 0%nat by lia. apply app_nil_r.
Qed.

Lemma parse_codes (c : list Z) :
  Forall (fun z => in_int32 z = true) c ->
  mapM (fun s => z <- string_to_number s ;; Some (sub32 z 1)) (map str c)
  = Some (map (fun z => sub32 z 1) c).
Proof.
  intros Hc. rewrite mapM_map, <- mapM_total. apply mapM_ext_in.
  intros z Hz. rewrite Forall_forall in Hc.
  now rewrite (string_to_number_str _ (Hc z Hz)).
Qed.

Lemma gather_categories (ds : Dataset) (U : list (list Z)) :
  (alpha <- mapM (mapM (gather1 (Odds ds)))
              (map (map (fun z => sub32 z 1)) U) ;;
   Some (map reduce_prod alpha))
  = mapM (category_alpha ds) U.
Proof.
  rewrite mapM_map, mapM_bind_map. apply mapM_ext_in. intros c _.
  unfold category_alpha. now rewrite mapM_map.
Qed.

Lemma logLikeDisc_render (ds : Dataset) (n : nat) (G : list (list Z)) :
  Forall (fun r => List.length r = n) G ->
  Forall (Forall (fun z => in_int32 z = true)) G ->
  logLikeDisc ds (render n G) = disc_of_categories ds (categories n G).
Proof.
  intros Hshape Hint. unfold logLikeDisc, unique_with_counts.
  rewrite (reduce_join_render n G Hshape).
  set (cs := categories n G).
  rewrite (unique_map_inj codes_eqb String.eqb codes_eqb_spec string_eqb_spec
             key key_inj).
  set (U := unique codes_eqb cs).
  assert (HU : forall c, In c U -> In c cs) by (intros c; apply unique_incl).
  unfold string_split. rewrite map_map.
  rewrite (map_ext _ (map str) split_key).
  rewrite (sparse_tensor_to_dense_full (List.length G)).
  2:{ apply Forall_forall. intros r Hr. apply in_map_iff in Hr.
      destruct Hr as (c & <- & Hc). rewrite length_map.
      apply (category_length n G), HU, Hc. }
  rewrite mapM_map.
  rewrite (mapM_ext_in _ (fun c => Some (map (fun z => sub32 z 1) c))).
  2:{ intros c Hc. apply parse_codes.
      pose proof (category_codes (fun z => in_int32 z = true) n G eq_refl Hint) as H.
      rewrite Forall_forall in H. apply H, HU, Hc. }
  rewrite mapM_total. simpl bind.
  unfold disc_of_categories. fold cs. fold U.
  rewrite <- gather_categories.
  destruct (mapM (mapM (gather1 (Odds ds))) (map (map (fun z => sub32 z 1)) U))
    as [alpha |]; simpl; [| reflexivity].
  rewrite !map_map.
  rewrite (map_ext (fun c => INR (count String.eqb (map key cs) (key c)))
                   (fun c => INR (count codes_eqb cs c))).
  - reflexivity.
  - intros c. f_equal.
    apply (count_map_inj codes_eqb String.eqb codes_eqb_spec
             string_eqb_spec key key_inj).
Qed.

(** ** The order of the selected rows *)

Lemma reduce_prod_perm (u v : list R) :
  Permutation u v -> reduce_prod u = reduce_prod v.
Proof.
  induction 1 as [| a u v _ IH | a b u | u v w _ IH1 _ IH2]; simpl.
  - reflexivity.
  - now rewrite IH.
  - ring.
  - now rewrite IH1.
Qed.

Lemma mapM_perm {A B} (f : A -> option B) (l l' : list A) :
  Permutation l l' ->
  match mapM f l, mapM f l' with
  | Some u, Some v => Permutation u v
  | None, None => True
  | _, _ => False
  end.
Proof.
  induction 1 as [| a l l' _ IH | a b l | l l' l'' _ IH1 _ IH2]; simpl.
  - constructor.
  - destruct (f a); simpl; [| exact I].
    destruct (mapM f l), (mapM f l'); simpl; try tauto. now constructor.
  - destruct (f a), (f b); simpl; try exact I.
    destruct (mapM f l); simpl; [apply perm_swap | exact I].
  - destruct (mapM f l), (mapM f l'), (mapM f l''); try tauto.
    now transitivity l1.
Qed.

Lemma category_alpha_perm (ds : Dataset) (c c' : list Z) :
  Permutation c c' -> category_alpha ds c = category_alpha ds c'.
Proof.
  intros H. unfold category_alpha.
  pose proof (mapM_perm (fun z => gather1 (Odds ds) (sub32 z 1)) c c' H) as HM.
  destruct (mapM _ c), (mapM _ c'); simpl; try tauto.
  f_equal. now apply reduce_prod_perm.
Qed.

(** Reordering the rows of a matrix reorders every column in one way. *)
Lemma perm_columns {A} (d : A) (G G' : list (list A)) :
  Permutation G G' ->
  exists g : list A -> list A,
    (forall a b, g a = g b -> a = b) /\
    (forall c, Permutation c (g c)) /\
    (forall n j, column d (mkTensor n G') j = g (column d (mkTensor n G) j)).
Proof.
  induction 1 as [| x l l' _ IH | x y l | l l' l'' _ IH1 _ IH2].
  - exists (fun c => c). split; [| split]; auto.
  - destruct IH as (g & Hinj & Hperm & Hcol).
    exists (fun c => match c with [] => [] | a :: c' => a :: g c' end).
    split; [| split].
    + intros [| a u] [| b v]; try discriminate; [reflexivity |].
      intros [= E1 E2]. f_equal; auto.
    + intros [| a u]; constructor. apply Hperm.
    + intros n j. unfold column in *. simpl in *. f_equal. apply (Hcol n j).
  - exists (fun c => match c with a :: b :: c' => b :: a :: c' | _ => c end).
    split; [| split].
    + intros [| a1 [| a2 u]] [| b1 [| b2 v]]; try discriminate; congruence.
    + intros [| a1 [| a2 u]]; try reflexivity. apply perm_swap.
    + intros n j. reflexivity.
  - destruct IH1 as (g1 & Hinj1 & Hperm1 & Hcol1).
    destruct IH2 as (g2 & Hinj2 & Hperm2 & Hcol2).
    exists (fun c => g2 (g1 c)). split; [| split].
    + intros a b E. auto.
    + intros c. transitivity (g1 c); auto.
    + intros n j. now rewrite Hcol2, Hcol1.
Qed.

Lemma disc_of_categories_map (ds : Dataset) (g : list Z -> list Z)
    (cs : list (list Z)) :
  (forall a b, g a = g b -> a = b) ->
  (forall c, Permutation c (g c)) ->
  disc_of_categories ds (map g cs) = disc_of_categories ds cs.
Proof.
  intros Hinj Hperm. unfold disc_of_categories.
  rewrite (unique_map_inj codes_eqb codes_eqb codes_eqb_spec codes_eqb_spec
             g Hinj).
  rewrite mapM_map.
  rewrite (mapM_ext_in (fun c => category_alpha ds (g c)) (category_alpha ds)).
  2:{ intros c _. symmetry. apply category_alpha_perm, Hperm. }
  rewrite !map_map.
  rewrite (map_ext (fun c => INR (count codes_eqb (map g cs) (g c)))
                   (fun c => INR (count codes_eqb cs c))).
  - rewrite <- !map_map with (f := count codes_eqb cs) (g := INR). reflexivity.
  - intros c. f_equal.
    apply (count_map_inj codes_eqb codes_eqb codes_eqb_spec codes_eqb_spec
             g Hinj).
Qed.

(** C8: the discrete likelihood of a selection of SNP rows does not depend
    on the order of the rows (idealised arithmetic: the product of the odds
    of a category is a product of real numbers). *)
Theorem logLikeDisc_row_order :
  forall (ds : Dataset) (n : nat) (G G' : list (list Z)),
    Forall (fun r => List.length r = n) G ->
    Forall (Forall (fun z => in_int32 z = true)) G ->
    Permutation G G' ->
    logLikeDisc ds (render n G') = logLikeDisc ds (render n G).
Proof.
  intros ds n G G' Hshape Hint HP.
  rewrite !logLikeDisc_render;
    try assumption;
    try (eapply Permutation_Forall; eassumption).
  destruct (perm_columns 0%Z G G' HP) as (g & Hinj & Hperm & Hcol).
  replace (categories n G') with (map g (categories n G)).
  - now apply disc_of_categories_map.
  - unfold categories. rewrite map_map. apply map_ext. intros j.
    symmetry. apply Hcol.
Qed.

(** ** The discrete likelihood as a formula *)

Lemma gather_odds (ds : Dataset) (z : Z) :
  code_ok z = true ->
  gather1 (Odds ds) (sub32 z 1) = Some (odds_below_code ds z).
Proof.
  unfold code_ok. intros H. apply andb_true_iff in H. destruct H as [H1 H3].
  apply Z.leb_le in H1, H3.
  assert (E : z = 1%Z \/ z = 2%Z \/ z = 3%Z) by lia.
  destruct E as [-> | [-> | ->]]; reflexivity.
Qed.

Lemma category_alpha_ok (ds : Dataset) (c : list Z) :
  Forall (fun z => code_ok z = true) c ->
  category_alpha ds c = Some (spec_alpha (odds_below_code ds) c).
Proof.
  intros Hc. unfold category_alpha, spec_alpha.
  rewrite (mapM_ext_in _ (fun z => Some (odds_below_code ds z))).
  - now rewrite mapM_total.
  - intros z Hz. rewrite Forall_forall in Hc. now apply gather_odds, Hc.
Qed.

Lemma map2_map {A B C D} (f : B -> C -> D) (g : A -> B) (h : A -> C) (l : list A) :
  map2 f (map g l) (map h l) = map (fun a => f (g a) (h a)) l.
Proof.
  unfold map2. induction l as [| a l IH]; simpl; [reflexivity | now rewrite IH].
Qed.

Lemma code_ok_int32 (z : Z) : code_ok z = true -> in_int32 z = true.
Proof.
  unfold code_ok, in_int32. rewrite !andb_true_iff.
  rewrite !Z.leb_le, Z.ltb_lt. lia.
Qed.

Lemma codes_ok_int32 (G : list (list Z)) :
  Forall (Forall (fun z => code_ok z = true)) G ->
  Forall (Forall (fun z => in_int32 z = true)) G.
Proof.
  intros H. eapply Forall_impl; [| exact H].
  intros r Hr. eapply Forall_impl; [| exact Hr].
  intros z. apply code_ok_int32.
Qed.

Lemma disc_of_categories_ok (ds : Dataset) (cs : list (list Z)) :
  Forall (Forall (fun z => code_ok z = true)) cs ->
  disc_of_categories ds cs = Some (spec_logLikeDisc (odds_below_code ds) cs).
Proof.
  intros Hcs. unfold disc_of_categories, spec_logLikeDisc.
  set (U := unique codes_eqb cs).
  rewrite (mapM_ext_in _ (fun c => Some (spec_alpha (odds_below_code ds) c))).
  2:{ intros c Hc. apply category_alpha_ok.
      rewrite Forall_forall in Hcs. apply Hcs.
      eapply unique_incl, Hc. }
  rewrite mapM_total. simpl bind.
  rewrite (map_map (count codes_eqb cs) INR).
  rewrite map2_map, !map_map, map2_map.
  f_equal. rewrite Rplus_0_l. f_equal.
  - apply reduce_sum_map_ext. intros c. now rewrite Rplus_comm.
  - f_equal. apply reduce_sum_map_ext. intros c. apply Rplus_comm.
Qed.

Lemma logLikeDisc_categories (ds : Dataset) (n : nat) (G : list (list Z)) :
  Forall (fun r => List.length r = n) G ->
  Forall (Forall (fun z => code_ok z = true)) G ->
  logLikeDisc ds (render n G)
  = Some (spec_logLikeDisc (odds_below_code ds) (categories n G)).
Proof.
  intros Hshape Hcodes.
  rewrite (logLikeDisc_render ds n G Hshape (codes_ok_int32 G Hcodes)).
  apply disc_of_categories_ok.
  (* the filler of a short row is never read from a well-shaped matrix *)
  apply Forall_forall. intros c Hc. apply in_map_iff in Hc.
  destruct Hc as (j & <- & Hj). apply in_seq in Hj.
  unfold column. simpl trows. apply Forall_forall. intros z Hz.
  apply in_map_iff in Hz. destruct Hz as (r & <- & Hr).
  rewrite Forall_forall in Hshape, Hcodes.
  specialize (Hshape r Hr). specialize (Hcodes r Hr).
  rewrite Forall_forall in Hcodes. apply Hcodes, nth_In. lia.
Qed.

(** C4, as the graph has it: on a selection of SNP rows whose codes are 1, 2
    and 3, [logLikeDisc] is the Dirichlet-multinomial formula over the
    categories that occur, the pseudo-count of a category being the product
    over the rows of [Odds] at the row's code less one. *)
Theorem logLikeDisc_formula :
  forall (ds : Dataset) (n : nat) (G : list (list Z)),
    G <> [] ->
    Forall (fun r => List.length r = n) G ->
    Forall (Forall (fun z => code_ok z = true)) G ->
    logLikeDisc ds (render n G)
    = Some (spec_logLikeDisc (odds_below_code ds) (categories n G)).
Proof.
  intros ds n G _. apply logLikeDisc_categories.
Qed.

(** ** Positions that bear a label *)

Lemma where_equal_from (v : list Z) (x : Z) (s : nat) :
  map fst (filter (fun p => Z.eqb (snd p) x) (combine (seq s (List.length v)) v))
  = filter (fun p => Z.eqb (nth (p - s) v 0%Z) x) (seq s (List.length v)).
Proof.
  revert s. induction v as [| a v IH]; intros s; [reflexivity |].
  simpl. rewrite Nat.sub_diag. destruct (Z.eqb a x); simpl; rewrite IH.
  - f_equal. apply filter_ext_in. intros p Hp. apply in_seq in Hp.
    replace (p - s)%nat with (S (p - S s)) by lia. reflexivity.
  - apply filter_ext_in. intros p Hp. apply in_seq in Hp.
    replace (p - s)%nat with (S (p - S s)) by lia. reflexivity.
Qed.

Lemma np_where_filter (I : list Z) (v : Z) :
  np_where I v = filter (fun p => Z.eqb (nth p I 0%Z) v) (seq 0 (List.length I)).
Proof.
  unfold np_where, where_equal. rewrite where_equal_from.
  apply filter_ext. intros p. now rewrite Nat.sub_0_r.
Qed.

Lemma np_where_In (I : list Z) (v : Z) (p : nat) :
  In p (np_where I v) <-> (p < List.length I)%nat /\ nth p I 0%Z = v.
Proof.
  rewrite np_where_filter, filter_In, in_seq, Z.eqb_eq. intuition lia.
Qed.

Lemma np_where_NoDup (I : list Z) (v : Z) : NoDup (np_where I v).
Proof. rewrite np_where_filter. apply NoDup_filter, seq_NoDup. Qed.

Lemma two_bearers (I : list Z) (v : Z) (p q : nat) :
  p <> q -> In p (np_where I v) -> In q (np_where I v) ->
  (2 <= bearers I v)%nat.
Proof.
  intros Hpq Hp Hq. unfold bearers.
  assert (Hincl : incl [p; q] (np_where I v))
    by (intros r [<- | [<- | []]]; assumption).
  apply NoDup_incl_length in Hincl; [exact Hincl |].
  constructor; [| constructor; [tauto | constructor]].
  intros [E | []]. congruence.
Qed.

(** ** Writing one position *)

Lemma set_at_length (a : list Z) (p : nat) (y : Z) :
  List.length (set_at a p y) = List.length a.
Proof.
  revert p. induction a as [| b a IH]; intros [| p]; simpl; auto.
Qed.

Lemma set_at_nth (a : list Z) (p q : nat) (y : Z) :
  (p < List.length a)%nat ->
  nth q (set_at a p y) 0%Z = if (q =? p)%nat then y else nth q a 0%Z.
Proof.
  revert p q. induction a as [| b a IH]; intros [| p] [| q] Hp; simpl in *;
    try lia; try reflexivity.
  apply IH. lia.
Qed.

(** ** One pass of the proposal loop *)

Lemma choice2_valid (Ix : list Z) (d : draw) :
  choice2 Ix d =
  if valid_draw (List.length Ix) d
  then Some (nth (pos1 d) Ix 0%Z, nth (pos2 d) Ix 0%Z) else None.
Proof. reflexivity. Qed.

Lemma valid_draw_spec (n : nat) (d : draw) :
  valid_draw n d = true <-> (pos1 d < n /\ pos2 d < n /\ pos1 d <> pos2 d)%nat.
Proof.
  unfold valid_draw. rewrite !andb_true_iff, negb_true_iff.
  rewrite !Nat.ltb_lt, Nat.eqb_neq. tauto.
Qed.

Lemma sort2_spec (a b : Z) :
  sort2 (a, b) = (Z.min a b, Z.max a b).
Proof.
  unfold sort2. simpl. destruct (Z.leb_spec a b).
  - now rewrite Z.min_l, Z.max_r.
  - now rewrite Z.min_r, Z.max_l by lia.
Qed.

(** The array [k] that [Iy[k] = y] receives has exactly one entry, a position
    that bears [x]. *)
Lemma chosen_position (Ix : list Z) (x : Z) (raw : nat) :
  (1 <= bearers Ix x)%nat ->
  exists p, In p (np_where Ix x) /\
    (if (1 <? List.length (np_where Ix x))%nat
     then choice1 (np_where Ix x) raw else np_where Ix x) = [p].
Proof.
  unfold bearers. set (k := np_where Ix x). intros Hk.
  destruct (Nat.ltb_spec 1 (List.length k)) as [Hlt | Hle].
  - exists (nth (raw mod List.length k) k 0%nat). split; [| reflexivity].
    apply nth_In, Nat.mod_upper_bound. lia.
  - destruct k as [| p [| q k]]; simpl in *; try lia.
    exists p. split; [now left | reflexivity].
Qed.

Lemma attempt_inv (Ix : list Z) (d : draw) (x y : Z) (Iy : list Z) (leave : bool) :
  attempt Ix d = Some (x, y, Iy, leave) ->
  valid_draw (List.length Ix) d = true /\
  x = Z.min (nth (pos1 d) Ix 0%Z) (nth (pos2 d) Ix 0%Z) /\
  y = Z.max (nth (pos1 d) Ix 0%Z) (nth (pos2 d) Ix 0%Z) /\
  (exists p, In p (np_where Ix x) /\ Iy = set_at Ix p y) /\
  leave = negb (bearers Ix x =? 1)%nat || negb (bearers Iy y =? 1)%nat.
Proof.
  unfold attempt. rewrite choice2_valid.
  destruct (valid_draw (List.length Ix) d) eqn:Hd; [| discriminate].
  simpl bind. rewrite sort2_spec.
  set (a := nth (pos1 d) Ix 0%Z). set (b := nth (pos2 d) Ix 0%Z).
  apply valid_draw_spec in Hd. destruct Hd as (H1 & H2 & Hne).
  assert (Hx : (1 <= bearers Ix (Z.min a b))%nat).
  { unfold bearers.
    assert (Hin : exists p, In p (np_where Ix (Z.min a b))).
    { destruct (Z.min_spec a b) as [[_ E] | [_ E]]; rewrite E.
      - exists (pos1 d). now apply np_where_In.
      - exists (pos2 d). now apply np_where_In. }
    destruct Hin as (p & Hp).
    destruct (np_where Ix (Z.min a b)); [destruct Hp | simpl; lia]. }
  destruct (chosen_position Ix (Z.min a b) (pick d) Hx) as (p & Hp & Hk).
  rewrite Hk. simpl assign. intros [= <- <- <- <-].
  repeat (split; [reflexivity |]).
  split; [exists p; auto | reflexivity].
Qed.

Lemma attempt_defined (Ix : list Z) (d : draw) :
  valid_draw (List.length Ix) d = true ->
  exists x y Iy leave, attempt Ix d = Some (x, y, Iy, leave).
Proof.
  intros Hd. unfold attempt. rewrite choice2_valid, Hd. simpl bind.
  destruct (sort2 _) as [x y]. eauto.
Qed.

(** The test that ends the loop holds on every pass: a proposal puts a second
    bearer next to one of [y], unless [x] and [y] are one label, which then
    has two bearers already. *)
Lemma attempt_leaves (Ix : list Z) (d : draw) (x y : Z) (Iy : list Z) (leave : bool) :
  attempt Ix d = Some (x, y, Iy, leave) -> leave = true.
Proof.
  intros H. apply attempt_inv in H.
  destruct H as (Hd & Ex & Ey & (p & Hp & EIy) & ->).
  apply valid_draw_spec in Hd. destruct Hd as (H1 & H2 & Hne).
  remember (nth (pos1 d) Ix 0%Z) as a eqn:Ea.
  remember (nth (pos2 d) Ix 0%Z) as b eqn:Eb.
  symmetry in Ea, Eb.
  apply orb_true_iff. destruct (Z.eq_dec x y) as [Exy | Nxy].
  - left. apply negb_true_iff, Nat.eqb_neq.
    assert (a = x /\ b = x) as [Eax Ebx] by lia.
    pose proof (two_bearers Ix x (pos1 d) (pos2 d) Hne) as H.
    rewrite !np_where_In in H.
    assert (Hbear : (2 <= bearers Ix x)%nat)
      by (apply H; split; congruence).
    lia.
  - right. apply negb_true_iff, Nat.eqb_neq.
    apply np_where_In in Hp. destruct Hp as [Hp Hpx].
    assert (Hq : exists q, (q < List.length Ix)%nat /\ nth q Ix 0%Z = y).
    { destruct (Z.max_spec a b) as [[_ E] | [_ E]].
      - exists (pos2 d). split; [assumption | lia].
      - exists (pos1 d). split; [assumption | lia]. }
    destruct Hq as (q & Hq & Hqy).
    assert (Hpq : p <> q) by congruence.
    subst Iy.
    pose proof (two_bearers (set_at Ix p y) y p q Hpq) as H.
    rewrite !np_where_In, set_at_length, !set_at_nth in H by assumption.
    rewrite Nat.eqb_refl in H.
    destruct (Nat.eqb_spec q p) as [E | _]; [congruence |].
    specialize (H (conj Hp eq_refl) (conj Hq Hqy)). lia.
Qed.

(** ** The proposal loop *)

Lemma propose_first (Ix : list Z) (d : draw) (rest : list draw) :
  valid_draw (List.length Ix) d = true ->
  exists x y Iy,
    attempt Ix d = Some (x, y, Iy, true) /\
    propose Ix (d :: rest) = Some (x, y, Iy).
Proof.
  intros Hd. destruct (attempt_defined Ix d Hd) as (x & y & Iy & leave & E).
  pose proof (attempt_leaves Ix d _ _ _ _ E) as ->.
  exists x, y, Iy. split; [assumption |]. simpl. now rewrite E.
Qed.

Lemma propose_inv (Ix : list Z) (draws : list draw) (x y : Z) (Iy : list Z) :
  propose Ix draws = Some (x, y, Iy) ->
  exists d rest, draws = d :: rest /\ attempt Ix d = Some (x, y, Iy, true).
Proof.
  destruct draws as [| d rest]; simpl; [discriminate |].
  destruct (attempt Ix d) as [[[[x' y'] Iy'] leave] |] eqn:E; simpl;
    [| discriminate].
  pose proof (attempt_leaves Ix d _ _ _ _ E) as ->.
  intros [= -> -> ->]. eauto.
Qed.

(** C6, as the loop has it: the loop is left only with a proposal for which
    it is not the case that [x] has one bearer in the current assignment and
    [y] one bearer in the proposal; that test holds on every pass, so a valid
    first draw always leaves the loop, whatever the sizes of the clusters of
    [x] and [y]. *)
Theorem proposal_loop_exit :
  forall (Ix : list Z) (draws : list draw),
    (forall x y Iy, propose Ix draws = Some (x, y, Iy) ->
       ~ (bearers Ix x = 1%nat /\ bearers Iy y = 1%nat)) /\
    (forall d rest, draws = d :: rest ->
       valid_draw (List.length Ix) d = true ->
       exists x y Iy,
         attempt Ix d = Some (x, y, Iy, true) /\
         propose Ix draws = Some (x, y, Iy)).
Proof.
  intros Ix draws. split.
  - intros x y Iy H. apply propose_inv in H.
    destruct H as (d & rest & _ & H). apply attempt_inv in H.
    destruct H as (_ & _ & _ & _ & Hleave). intros [E1 E2].
    rewrite E1, E2 in Hleave. discriminate.
  - intros d rest -> Hd. now apply propose_first.
Qed.

(** ** Evaluations that do not fail *)

Lemma where_equal_bound {A} (eqb : A -> A -> bool) (v : list A) (x : A) (p : nat) :
  In p (where_equal eqb v x) -> (p < List.length v)%nat.
Proof.
  unfold where_equal. intros H. apply in_map_iff in H.
  destruct H as ([q a] & <- & H). apply filter_In in H. destruct H as [H _].
  apply in_combine_l, in_seq in H. simpl. lia.
Qed.

Lemma mapM_defined {A B} (f : A -> option B) (l : list A) :
  (forall a, In a l -> exists b, f a = Some b) ->
  exists bs, mapM f l = Some bs.
Proof.
  induction l as [| a l IH]; intros H; simpl; [eauto |].
  destruct (H a (or_introl eq_refl)) as (b & ->).
  destruct IH as (bs & ->); [intros; apply H; now right |].
  simpl. eauto.
Qed.

Lemma gather_nth {A} (d : A) (params : list A) (idx : list nat) :
  (forall i, In i idx -> (i < List.length params)%nat) ->
  gather params idx = Some (map (fun i => nth i params d) idx).
Proof.
  intros H. unfold gather. rewrite <- mapM_total. apply mapM_ext_in.
  intros i Hi. apply nth_error_nth'. now apply H.
Qed.

Lemma rows_of_nth {A} (data : tensor A) (part : list Z) (var : Z) :
  (List.length part <= shape0 data)%nat ->
  rows_of data part var
  = Some (mkTensor (ncols data)
            (map (fun i => nth i (trows data) []) (np_where part var))).
Proof.
  intros Hlen. unfold rows_of.
  rewrite (gather_nth [] (trows data)); [reflexivity |].
  intros i Hi. apply where_equal_bound in Hi. unfold shape0 in Hlen. lia.
Qed.

Lemma well_formed_spec (ds : Dataset) :
  well_formed ds = true ->
  List.length (genotypes ds) = SNPNum ds /\
  List.length (phenotypes ds) = PhenoNum ds /\
  Forall (fun r => List.length r = ObsNum ds) (genotypes ds) /\
  Forall (fun r => List.length r = ObsNum ds) (phenotypes ds) /\
  Forall (Forall (fun z => code_ok z = true)) (genotypes ds).
Proof.
  unfold well_formed. rewrite !andb_true_iff, !Nat.eqb_eq.
  intros ((((H1 & H2) & H3) & H4) & H5). repeat split; try assumption.
  - apply Forall_forall. intros r Hr. rewrite forallb_forall in H3.
    apply Nat.eqb_eq. now apply H3.
  - apply Forall_forall. intros r Hr. rewrite forallb_forall in H4.
    apply Nat.eqb_eq. now apply H4.
  - apply Forall_forall. intros r Hr. rewrite forallb_forall in H5.
    apply Forall_forall. intros z Hz. specialize (H5 r Hr).
    rewrite forallb_forall in H5. now apply H5.
Qed.

Lemma reduce_join_length (t : tensor string) :
  List.length (reduce_join t) = ncols t.
Proof. unfold reduce_join. now rewrite length_map, length_seq. Qed.

Lemma select_fn_defined (ds : Dataset) (discTensor : tensor string)
    (contTensor : tensor R) (elem : string) :
  (ncols discTensor <= ncols contTensor)%nat ->
  exists r, select_fn ds (reduce_join discTensor) contTensor elem = Some r.
Proof.
  intros Hn. unfold select_fn.
  rewrite (gather_nth [] (trows (transpose 0%R contTensor))).
  - simpl. eauto.
  - intros i Hi. apply where_equal_bound in Hi.
    rewrite reduce_join_length in Hi.
    unfold transpose. simpl trows. rewrite length_map, length_seq. lia.
Qed.

Lemma calcProb_defined (ds : Dataset) (n : nat) (G : list (list Z))
    (contTensor : tensor R) :
  Forall (fun r => List.length r = n) G ->
  Forall (Forall (fun z => code_ok z = true)) G ->
  (n <= ncols contTensor)%nat ->
  exists r, calcProb ds (render n G) contTensor = Some r.
Proof.
  intros Hshape Hcodes Hn. rewrite calcProb_cases.
  pose proof (logLikeDisc_categories ds n G Hshape Hcodes) as Hdisc.
  destruct (trows (render n G)), (trows contTensor); eauto.
  unfold logLikeDepe.
  destruct (mapM_defined (select_fn ds (reduce_join (render n G)) contTensor)
              (unique String.eqb (reduce_join (render n G)))) as (rs & ->).
  - intros elem _. now apply select_fn_defined.
  - rewrite Hdisc. simpl. eauto.
Qed.

(** ** The rows of a cluster *)

Lemma members_np_where (a : list Z) (v : Z) : np_where a v = members a v.
Proof. apply np_where_filter. Qed.

Lemma seq_add_map (s n : nat) : seq s n = map (fun i => (i + s)%nat) (seq 0 n).
Proof.
  revert s. induction n as [| n IH]; intros s; [reflexivity |].
  simpl. f_equal. rewrite (IH (S s)), <- seq_shift, map_map.
  apply map_ext. intros i. lia.
Qed.

Lemma members_app (l1 l2 : list Z) (v : Z) :
  members (l1 ++ l2) v
  = members l1 v ++ map (fun i => (i + List.length l1)%nat) (members l2 v).
Proof.
  unfold members. rewrite length_app, seq_app, filter_app. f_equal.
  - apply filter_ext_in. intros i Hi. apply in_seq in Hi.
    now rewrite app_nth1 by lia.
  - simpl. rewrite seq_add_map.
    rewrite (filter_map_inj (fun i => (i + List.length l1)%nat)
               (fun i => Z.eqb (nth i l2 0%Z) v)).
    + reflexivity.
    + intros i. rewrite app_nth2 by lia. f_equal. f_equal. lia.
Qed.

Lemma members_bound (a : list Z) (v : Z) (i : nat) :
  In i (members a v) -> (i < List.length a)%nat.
Proof.
  unfold members. rewrite filter_In, in_seq. lia.
Qed.

Lemma filter_all {A} (p : A -> bool) (l : list A) :
  (forall a, In a l -> p a = true) -> filter p l = l.
Proof.
  induction l as [| a l IH]; intros H; simpl; [reflexivity |].
  rewrite (H a) by now left. f_equal. apply IH. intros; apply H; now right.
Qed.

Lemma filter_none {A} (p : A -> bool) (l : list A) :
  (forall a, In a l -> p a = false) -> filter p l = [].
Proof.
  induction l as [| a l IH]; intros H; simpl; [reflexivity |].
  rewrite (H a) by now left. apply IH. intros; apply H; now right.
Qed.

Section Clusters.

Variable ds : Dataset.
Variable a : list Z.
Hypothesis a_length : List.length a = TotalNum ds.

Lemma split_assignment : a = Dx ds a ++ Cx ds a.
Proof.
  unfold Dx, Cx. rewrite (firstn_all2 (n := TotalNum ds - SNPNum ds)).
  - symmetry. apply firstn_skipn.
  - rewrite length_skipn. lia.
Qed.

Lemma Dx_length : List.length (Dx ds a) = SNPNum ds.
Proof. unfold Dx. rewrite length_firstn. unfold TotalNum in a_length. lia. Qed.

Lemma members_variants (v : Z) :
  filter (fun i => (i <? SNPNum ds)%nat) (members a v) = members (Dx ds a) v.
Proof.
  rewrite split_assignment at 1. rewrite members_app, filter_app, Dx_length.
  rewrite filter_all, filter_none, app_nil_r; [reflexivity | |].
  - intros i Hi. apply in_map_iff in Hi. destruct Hi as (j & <- & _).
    apply Nat.ltb_ge. lia.
  - intros i Hi. apply members_bound in Hi. rewrite Dx_length in Hi.
    now apply Nat.ltb_lt.
Qed.

Lemma members_traits (v : Z) :
  filter (fun i => (SNPNum ds <=? i)%nat) (members a v)
  = map (fun i => (i + SNPNum ds)%nat) (members (Cx ds a) v).
Proof.
  rewrite split_assignment at 1. rewrite members_app, filter_app, Dx_length.
  rewrite filter_none, filter_all; [reflexivity | |].
  - intros i Hi. apply in_map_iff in Hi. destruct Hi as (j & <- & _).
    apply Nat.leb_le. lia.
  - intros i Hi. apply members_bound in Hi. rewrite Dx_length in Hi.
    apply Nat.leb_gt. lia.
Qed.

Hypothesis ds_ok : well_formed ds = true.

Lemma Dxx_variant_rows (v : Z) : Dxx ds a v = Some (variant_rows ds a v).
Proof.
  destruct (well_formed_spec ds ds_ok) as (Hg & _).
  unfold Dxx, variant_rows. rewrite rows_of_nth.
  - now rewrite members_np_where, members_variants.
  - unfold shape0, GeneData. simpl trows. rewrite length_map, Dx_length. lia.
Qed.

Lemma Cxx_trait_rows (v : Z) : Cxx ds a v = Some (trait_rows ds a v).
Proof.
  destruct (well_formed_spec ds ds_ok) as (_ & Hp & _).
  unfold Cxx, trait_rows. rewrite rows_of_nth.
  - rewrite members_np_where, members_traits, map_map. simpl ncols.
    do 2 f_equal. apply map_ext. intros i. f_equal. lia.
  - unfold shape0, PhenoData. simpl trows.
    pose proof a_length as HL.
    rewrite split_assignment, length_app, Dx_length in HL.
    unfold TotalNum in HL. lia.
Qed.

End Clusters.

(** ** The scores of the accept/reject node *)

Lemma variant_rows_render (ds : Dataset) (a : list Z) (v : Z) :
  well_formed ds = true ->
  exists G,
    variant_rows ds a v = render (ObsNum ds) G /\
    Forall (fun r => List.length r = ObsNum ds) G /\
    Forall (Forall (fun z => code_ok z = true)) G.
Proof.
  intros Hok. destruct (well_formed_spec ds Hok) as (Hlen & _ & Hshape & _ & Hcodes).
  set (L := filter (fun i => (i <? SNPNum ds)%nat) (members a v)).
  exists (map (fun i => nth i (genotypes ds) []) L).
  assert (HL : forall i, In i L -> In (nth i (genotypes ds) []) (genotypes ds)).
  { intros i Hi. apply filter_In in Hi. destruct Hi as [_ Hi].
    apply Nat.ltb_lt in Hi. apply nth_In. lia. }
  split; [| split].
  - unfold variant_rows, render, GeneData. simpl trows. fold L.
    f_equal. rewrite map_map. apply map_ext. intros i.
    apply (map_nth (map str) (genotypes ds) [] i).
  - apply Forall_forall. intros r Hr. apply in_map_iff in Hr.
    destruct Hr as (i & <- & Hi). rewrite Forall_forall in Hshape.
    now apply Hshape, HL.
  - apply Forall_forall. intros r Hr. apply in_map_iff in Hr.
    destruct Hr as (i & <- & Hi). rewrite Forall_forall in Hcodes.
    now apply Hcodes, HL.
Qed.

Lemma cluster_score_defined (ds : Dataset) (a : list Z) (v : Z) :
  well_formed ds = true -> exists r, cluster_score ds a v = Some r.
Proof.
  intros Hok. destruct (variant_rows_render ds a v Hok) as (G & E & Hshape & Hcodes).
  unfold cluster_score. rewrite E.
  apply calcProb_defined; try assumption. simpl. lia.
Qed.

Lemma spec_score_defined (ds : Dataset) (a : list Z) (x y : Z) :
  well_formed ds = true -> exists r, spec_score ds a x y = Some r.
Proof.
  intros Hok. unfold spec_score.
  destruct (cluster_score_defined ds a x Hok) as (sx & ->).
  destruct (cluster_score_defined ds a y Hok) as (sy & ->).
  simpl. eauto.
Qed.

Lemma pX_spec_score (ds : Dataset) (index1 : list Z) (var1 var2 : Z) :
  well_formed ds = true -> List.length index1 = TotalNum ds ->
  pX ds index1 var1 var2 = spec_score ds index1 var1 var2.
Proof.
  intros Hok Hlen. unfold pX, spec_score, Dxy, Cxy.
  rewrite !(Dxx_variant_rows ds index1 Hlen Hok).
  rewrite (Cxx_trait_rows ds index1 Hlen Hok var1). simpl bind.
  fold (cluster_score ds index1 var1).
  destruct (cluster_score ds index1 var1) as [sx |]; simpl; [| reflexivity].
  change (rows_of (GeneData ds) (Dx ds index1) var2) with (Dxx ds index1 var2).
  change (rows_of (PhenoData ds) (Cx ds index1) var2) with (Cxx ds index1 var2).
  rewrite (Dxx_variant_rows ds index1 Hlen Hok var2).
  rewrite (Cxx_trait_rows ds index1 Hlen Hok var2). simpl bind.
  fold (cluster_score ds index1 var2).
  destruct (cluster_score ds index1 var2) as [sy |]; simpl; [| reflexivity].
  f_equal. ring.
Qed.

Lemma pY_spec_score (ds : Dataset) (index2 : list Z) (var1 var2 : Z) :
  well_formed ds = true -> List.length index2 = TotalNum ds ->
  pY ds index2 var1 var2 = spec_score ds index2 var1 var2.
Proof. apply pX_spec_score. Qed.

Lemma sess_run_scores (ds : Dataset) (Ix Iy : list Z) (x y : Z) (u : R) :
  well_formed ds = true ->
  List.length Ix = TotalNum ds -> List.length Iy = TotalNum ds ->
  exists sb sa,
    spec_score ds Ix x y = Some sb /\
    spec_score ds Iy x y = Some sa /\
    sess_run ds Ix Iy x y u = Some (if accept u sb sa then Iy else Ix).
Proof.
  intros Hok HIx HIy.
  destruct (spec_score_defined ds Ix x y Hok) as (sb & Hsb).
  destruct (spec_score_defined ds Iy x y Hok) as (sa & Hsa).
  exists sb, sa. split; [assumption |]. split; [assumption |].
  unfold sess_run.
  now rewrite (pX_spec_score ds Ix x y Hok HIx), Hsb,
              (pY_spec_score ds Iy x y Hok HIy), Hsa.
Qed.

Lemma accept_spec (u sb sa : R) :
  accept u sb sa = true <-> (ln u <= Rmin 0 (sa - sb))%R.
Proof.
  unfold accept, Rleb, ZERO.
  destruct (Rle_dec (ln u) (Rmin 0 (sa - sb))); split; auto; discriminate.
Qed.

Lemma proposal_length (Ix : list Z) (draws : list draw) (x y : Z) (Iy : list Z) :
  propose Ix draws = Some (x, y, Iy) -> List.length Iy = List.length Ix.
Proof.
  intros H. apply propose_inv in H. destruct H as (d & rest & _ & H).
  apply attempt_inv in H. destruct H as (_ & _ & _ & (p & _ & ->) & _).
  apply set_at_length.
Qed.

(** C3: in an iteration that proposes [Iy] for the labels [x] and [y], with
    [u] in (0,1), the scores before and after are defined, they are the sums
    of [calcProb] over the members of [x] and of [y] under the current and
    the proposed assignment, and the iteration ends in the proposal exactly
    when [ln u <= min 0 (scoreAfter - scoreBefore)]; otherwise it ends in the
    current assignment, unchanged. *)
Theorem acceptance_rule :
  forall (ds : Dataset) (Ix : list Z) (r : randomness) (x y : Z) (Iy : list Z),
    well_formed ds = true ->
    List.length Ix = TotalNum ds ->
    (0 < uniform r < 1)%R ->
    propose Ix (draws r) = Some (x, y, Iy) ->
    exists scoreBefore scoreAfter,
      spec_score ds Ix x y = Some scoreBefore /\
      spec_score ds Iy x y = Some scoreAfter /\
      ((ln (uniform r) <= Rmin 0 (scoreAfter - scoreBefore))%R ->
         iteration ds Ix r = Some Iy) /\
      (~ (ln (uniform r) <= Rmin 0 (scoreAfter - scoreBefore))%R ->
         iteration ds Ix r = Some Ix).
Proof.
  intros ds Ix r x y Iy Hok HIx _ Hprop.
  pose proof (proposal_length Ix (draws r) x y Iy Hprop) as HIy.
  rewrite HIx in HIy.
  destruct (sess_run_scores ds Ix Iy x y (uniform r) Hok HIx HIy)
    as (sb & sa & Hsb & Hsa & Hrun).
  exists sb, sa. split; [assumption |]. split; [assumption |].
  unfold iteration. rewrite Hprop. simpl bind. rewrite Hrun.
  split; intros H.
  - apply accept_spec in H. now rewrite H.
  - destruct (accept (uniform r) sb sa) eqn:E; [| reflexivity].
    apply accept_spec in E. contradiction.
Qed.

(** ** The shape of a proposal *)

Lemma proposal_shape (Ix : list Z) (draws : list draw) (x y : Z) (Iy : list Z) :
  propose Ix draws = Some (x, y, Iy) ->
  (x <= y)%Z /\ In x Ix /\ In y Ix /\
  exists k, (k < List.length Ix)%nat /\ nth k Ix 0%Z = x /\ Iy = set_at Ix k y.
Proof.
  intros H. apply propose_inv in H. destruct H as (d & rest & _ & H).
  apply attempt_inv in H.
  destruct H as (Hd & Ex & Ey & (p & Hp & EIy) & _).
  apply valid_draw_spec in Hd. destruct Hd as (H1 & H2 & _).
  pose proof (nth_In Ix 0%Z H1) as Ha. pose proof (nth_In Ix 0%Z H2) as Hb.
  apply np_where_In in Hp. destruct Hp as [Hp Hpx].
  split; [lia |]. split; [| split].
  - rewrite Ex. destruct (Z.min_spec (nth (pos1 d) Ix 0%Z) (nth (pos2 d) Ix 0%Z))
      as [[_ E] | [_ E]]; now rewrite E.
  - rewrite Ey. destruct (Z.max_spec (nth (pos1 d) Ix 0%Z) (nth (pos2 d) Ix 0%Z))
      as [[_ E] | [_ E]]; now rewrite E.
  - exists p. auto.
Qed.

Lemma set_at_range (n : nat) (a : list Z) (p : nat) (y : Z) :
  labels_in_range n a -> (0 <= y < Z.of_nat n)%Z ->
  labels_in_range n (set_at a p y).
Proof.
  unfold labels_in_range. intros Ha Hy. revert p.
  induction Ha as [| b a Hb Ha IH]; intros [| p]; simpl; constructor; auto.
Qed.

Lemma proposal_ok (n : nat) (Ix : list Z) (draws : list draw) (x y : Z) (Iy : list Z) :
  assignment_ok n Ix -> propose Ix draws = Some (x, y, Iy) ->
  assignment_ok n Iy.
Proof.
  intros [Hlen Hrange] H. apply proposal_shape in H.
  destruct H as (_ & _ & Hy & k & _ & _ & ->). split.
  - now rewrite set_at_length.
  - apply set_at_range; [assumption |].
    unfold labels_in_range in Hrange. rewrite Forall_forall in Hrange.
    now apply Hrange.
Qed.

Lemma proposal_increases (Ix : list Z) (draws : list draw) (x y : Z) (Iy : list Z) :
  propose Ix draws = Some (x, y, Iy) ->
  forall q, (nth q Ix 0%Z <= nth q Iy 0%Z)%Z.
Proof.
  intros H q. apply proposal_shape in H.
  destruct H as (Hxy & _ & _ & k & Hk & Hkx & ->).
  rewrite set_at_nth by assumption.
  destruct (Nat.eqb_spec q k) as [-> | _]; lia.
Qed.

(** ** Iterations *)

Lemma iteration_cases (ds : Dataset) (Ix Ix' : list Z) (r : randomness) :
  iteration ds Ix r = Some Ix' ->
  exists x y Iy,
    propose Ix (draws r) = Some (x, y, Iy) /\ (Ix' = Iy \/ Ix' = Ix).
Proof.
  unfold iteration.
  destruct (propose Ix (draws r)) as [[[x y] Iy] |]; simpl; [| discriminate].
  unfold sess_run.
  destruct (pX ds Ix x y); simpl; [| discriminate].
  destruct (pY ds Iy x y); simpl; [| discriminate].
  intros [= <-]. exists x, y, Iy. split; [reflexivity |].
  destruct (accept _ _ _); auto.
Qed.

Lemma iteration_defined (ds : Dataset) (Ix : list Z) (r : randomness) :
  well_formed ds = true -> List.length Ix = TotalNum ds ->
  valid_randomness (TotalNum ds) r = true ->
  exists Ix', iteration ds Ix r = Some Ix'.
Proof.
  intros Hok Hlen Hr. unfold valid_randomness in Hr.
  destruct (draws r) as [| d rest] eqn:Edraws; [discriminate |].
  rewrite <- Hlen in Hr.
  destruct (propose_first Ix d rest Hr) as (x & y & Iy & _ & Hprop).
  pose proof (proposal_length Ix (d :: rest) x y Iy Hprop) as HIy.
  rewrite Hlen in HIy.
  destruct (sess_run_scores ds Ix Iy x y (uniform r) Hok Hlen HIy)
    as (sb & sa & _ & _ & Hrun).
  unfold iteration. rewrite Edraws, Hprop. simpl bind. rewrite Hrun. eauto.
Qed.

Lemma iteration_ok (ds : Dataset) (n : nat) (Ix Ix' : list Z) (r : randomness) :
  assignment_ok n Ix -> iteration ds Ix r = Some Ix' -> assignment_ok n Ix'.
Proof.
  intros Hok H. apply iteration_cases in H.
  destruct H as (x & y & Iy & Hprop & [-> | ->]); [| assumption].
  eapply proposal_ok; eassumption.
Qed.

Lemma iteration_increases (ds : Dataset) (Ix Ix' : list Z) (r : randomness) :
  iteration ds Ix r = Some Ix' ->
  forall q, (nth q Ix 0%Z <= nth q Ix' 0%Z)%Z.
Proof.
  intros H q. apply iteration_cases in H.
  destruct H as (x & y & Iy & Hprop & [-> | ->]); [| lia].
  eapply proposal_increases; eassumption.
Qed.

Lemma iterate_app (ds : Dataset) (Ix : list Z) (rs1 rs2 : list randomness) :
  iterate ds Ix (rs1 ++ rs2) = (I <- iterate ds Ix rs1 ;; iterate ds I rs2).
Proof.
  revert Ix. induction rs1 as [| r rs1 IH]; intros Ix; simpl; [reflexivity |].
  destruct (iteration ds Ix r) as [Ix' |]; simpl; [apply IH | reflexivity].
Qed.

Lemma iterate_ok (ds : Dataset) (n : nat) (rs : list randomness) :
  forall Ix I, assignment_ok n Ix -> iterate ds Ix rs = Some I ->
               assignment_ok n I.
Proof.
  induction rs as [| r rs IH]; intros Ix I Hok; simpl.
  - now intros [= <-].
  - destruct (iteration ds Ix r) as [Ix' |] eqn:E; simpl; [| discriminate].
    apply IH. eapply iteration_ok; eassumption.
Qed.

Lemma iterate_increases (ds : Dataset) (rs : list randomness) :
  forall Ix I, iterate ds Ix rs = Some I ->
               forall q, (nth q Ix 0%Z <= nth q I 0%Z)%Z.
Proof.
  induction rs as [| r rs IH]; intros Ix I; simpl.
  - intros [= <-] q. lia.
  - destruct (iteration ds Ix r) as [Ix' |] eqn:E; simpl; [| discriminate].
    intros H q. pose proof (iteration_increases ds Ix Ix' r E q).
    pose proof (IH Ix' I H q). lia.
Qed.

Lemma iterate_defined (ds : Dataset) (rs : list randomness) :
  well_formed ds = true ->
  Forall (fun r => valid_randomness (TotalNum ds) r = true) rs ->
  forall Ix, assignment_ok (TotalNum ds) Ix ->
             exists I, iterate ds Ix rs = Some I.
Proof.
  intros Hok Hrs. induction Hrs as [| r rs Hr _ IH]; intros Ix HIx; simpl.
  - eauto.
  - destruct (iteration_defined ds Ix r Hok (proj1 HIx) Hr) as (Ix' & E).
    rewrite E. simpl. apply IH. eapply iteration_ok; eassumption.
Qed.

Lemma arange_length (n : nat) : List.length (arange n) = n.
Proof. unfold arange. now rewrite length_map, length_seq. Qed.

Lemma arange_nth (n i : nat) : (i < n)%nat -> nth i (arange n) 0%Z = Z.of_nat i.
Proof.
  intros Hi. unfold arange.
  change 0%Z with (Z.of_nat 0). rewrite map_nth, seq_nth; [reflexivity | lia].
Qed.

Lemma arange_ok (n : nat) : assignment_ok n (arange n).
Proof.
  split; [apply arange_length |].
  unfold labels_in_range, arange. apply Forall_forall. intros v Hv.
  apply in_map_iff in Hv. destruct Hv as (i & <- & Hi). apply in_seq in Hi. lia.
Qed.

(** ** Counting the outcomes of a draw *)

Lemma filter_filter_and {A} (f g : A -> bool) (l : list A) :
  filter f (filter g l) = filter (fun a => g a && f a) l.
Proof.
  induction l as [| a l IH]; simpl; [reflexivity |].
  destruct (g a); simpl; [destruct (f a) |]; now rewrite IH.
Qed.

Lemma filter_pair_length {A B} (f : A * B -> bool) (a : A) (l : list B) :
  List.length (filter f (map (pair a) l))
  = List.length (filter (fun b => f (a, b)) l).
Proof.
  induction l as [| b l IH]; simpl; [reflexivity |].
  destruct (f (a, b)); simpl; now rewrite IH.
Qed.

Lemma filter_prod_length {A B} (f : A * B -> bool) (l1 : list A) (l2 : list B) :
  List.length (filter f (list_prod l1 l2))
  = list_sum (map (fun a => List.length (filter (fun b => f (a, b)) l2)) l1).
Proof.
  induction l1 as [| a l1 IH]; simpl; [reflexivity |].
  now rewrite filter_app, length_app, filter_pair_length, IH.
Qed.

Lemma list_sum_indicator {A} (p : A -> bool) (c : nat) (l : list A) :
  list_sum (map (fun a => if p a then c else 0%nat) l)
  = (c * List.length (filter p l))%nat.
Proof.
  induction l as [| a l IH]; simpl; [lia |].
  rewrite IH. destruct (p a); simpl; lia.
Qed.

Lemma list_sum_map_add {A} (f g : A -> nat) (l : list A) :
  list_sum (map (fun a => (f a + g a)%nat) l)
  = (list_sum (map f l) + list_sum (map g l))%nat.
Proof.
  induction l as [| a l IH]; simpl; [reflexivity | rewrite IH; lia].
Qed.

Lemma filter_remove_one (p : nat -> bool) (i : nat) (l : list nat) :
  NoDup l -> In i l -> p i = true ->
  S (List.length (filter (fun j => negb (i =? j)%nat && p j) l))
  = List.length (filter p l).
Proof.
  intros Hnd. induction Hnd as [| a l Ha Hnd IH]; intros Hin Hp; [destruct Hin |].
  simpl. destruct Hin as [-> | Hin].
  - rewrite Nat.eqb_refl, Hp. simpl. f_equal. f_equal.
    apply filter_ext_in. intros j Hj.
    destruct (Nat.eqb_spec i j) as [-> | _]; [contradiction | reflexivity].
  - destruct (Nat.eqb_spec i a) as [-> | _]; [contradiction |]. simpl.
    destruct (p a); simpl; rewrite <- (IH Hin Hp); reflexivity.
Qed.

Lemma bearers_filter (Ix : list Z) (v : Z) :
  bearers Ix v
  = List.length (filter (fun i => Z.eqb (nth i Ix 0%Z) v) (seq 0 (List.length Ix))).
Proof. unfold bearers. now rewrite np_where_filter. Qed.

Lemma weight_sum (Ix : list Z) (x y : Z) :
  weight Ix x y
  = list_sum (map (fun i =>
      List.length (filter (fun j => negb (i =? j)%nat && yields Ix x y (i, j))
                          (seq 0 (List.length Ix))))
      (seq 0 (List.length Ix))).
Proof.
  unfold weight, outcomes. rewrite filter_filter_and, filter_prod_length.
  reflexivity.
Qed.

Lemma yields_spec (Ix : list Z) (x y : Z) (i j : nat) :
  yields Ix x y (i, j) = true <->
  Z.min (nth i Ix 0%Z) (nth j Ix 0%Z) = x /\
  Z.max (nth i Ix 0%Z) (nth j Ix 0%Z) = y.
Proof.
  unfold yields, labels_drawn. simpl fst. simpl snd. rewrite sort2_spec.
  simpl. now rewrite andb_true_iff, !Z.eqb_eq.
Qed.

(** An outcome whose labels are not [x, y]. *)
Ltac no_yield :=
  match goal with
  | |- yields ?I ?x ?y ?p = false =>
      let E := fresh "E" in
      destruct (yields I x y p) eqn:E;
      [apply yields_spec in E; lia | reflexivity]
  end.

Lemma weight_distinct (Ix : list Z) (x y : Z) :
  (x < y)%Z -> weight Ix x y = (2 * bearers Ix x * bearers Ix y)%nat.
Proof.
  intros Hxy. rewrite weight_sum.
  set (S0 := seq 0 (List.length Ix)).
  set (at_x := fun i => Z.eqb (nth i Ix 0%Z) x).
  set (at_y := fun i => Z.eqb (nth i Ix 0%Z) y).
  assert (Hbx : List.length (filter at_x S0) = bearers Ix x)
    by (symmetry; apply bearers_filter).
  assert (Hby : List.length (filter at_y S0) = bearers Ix y)
    by (symmetry; apply bearers_filter).
  rewrite (map_ext
    (fun i => List.length (filter (fun j => negb (i =? j)%nat && yields Ix x y (i, j)) S0))
    (fun i => ((if at_x i then bearers Ix y else 0)
               + (if at_y i then bearers Ix x else 0))%nat)).
  - rewrite list_sum_map_add, !list_sum_indicator, Hbx, Hby. lia.
  - intros i. rewrite <- Hbx, <- Hby. unfold at_x, at_y.
    destruct (Z.eqb_spec (nth i Ix 0%Z) x) as [Ex | Nx];
      destruct (Z.eqb_spec (nth i Ix 0%Z) y) as [Ey | Ny]; try lia.
    + rewrite Nat.add_0_r. f_equal. apply filter_ext. intros j.
      destruct (Z.eqb_spec (nth j Ix 0%Z) y) as [Ej | Nj].
      * destruct (Nat.eqb_spec i j) as [-> | _]; [lia |]. simpl.
        apply yields_spec. lia.
      * apply andb_false_iff. right. no_yield.
    + simpl. f_equal. apply filter_ext. intros j.
      destruct (Z.eqb_spec (nth j Ix 0%Z) x) as [Ej | Nj].
      * destruct (Nat.eqb_spec i j) as [-> | _]; [lia |]. simpl.
        apply yields_spec. lia.
      * apply andb_false_iff. right. no_yield.
    + simpl. rewrite filter_none; [reflexivity |]. intros j _.
      apply andb_false_iff. right. no_yield.
Qed.

Lemma weight_equal (Ix : list Z) (x : Z) :
  weight Ix x x = (bearers Ix x * (bearers Ix x - 1))%nat.
Proof.
  rewrite weight_sum.
  set (S0 := seq 0 (List.length Ix)).
  set (at_x := fun i => Z.eqb (nth i Ix 0%Z) x).
  assert (Hbx : List.length (filter at_x S0) = bearers Ix x)
    by (symmetry; apply bearers_filter).
  rewrite (map_ext_in
    (fun i => List.length (filter (fun j => negb (i =? j)%nat && yields Ix x x (i, j)) S0))
    (fun i => if at_x i then (bearers Ix x - 1)%nat else 0%nat)).
  - rewrite list_sum_indicator, Hbx. lia.
  - intros i Hi. rewrite <- Hbx.
    destruct (at_x i) eqn:Ei.
    + rewrite <- (filter_remove_one at_x i S0 (seq_NoDup _ _) Hi Ei).
      simpl. rewrite Nat.sub_0_r. f_equal. apply filter_ext. intros j.
      f_equal. unfold at_x in *. apply Z.eqb_eq in Ei.
      destruct (Z.eqb_spec (nth j Ix 0%Z) x) as [Ej | Nj].
      * apply yields_spec. lia.
      * no_yield.
    + rewrite filter_none; [reflexivity |]. intros j _.
      apply andb_false_iff. right. unfold at_x in Ei. apply Z.eqb_neq in Ei.
      no_yield.
Qed.

(** ** The labels of a proposal *)

(** C5, as the loop has it: [x] and [y] are the labels, in increasing order,
    found at two different positions of the assignment; both are present in
    it and they are equal when the two positions bear one label.  Among the
    equally likely outcomes of the draw, a pair of different labels is given
    by twice the product of their numbers of bearers, and a label with [b]
    bearers is drawn twice by [b (b - 1)] outcomes. *)
Theorem drawn_labels :
  forall (Ix : list Z) (d : draw) (x y : Z) (Iy : list Z) (leave : bool),
    attempt Ix d = Some (x, y, Iy, leave) ->
    valid_draw (List.length Ix) d = true /\
    (x, y) = labels_drawn Ix (pos1 d, pos2 d) /\
    (x <= y)%Z /\ In x Ix /\ In y Ix /\
    ((x < y)%Z -> weight Ix x y = (2 * bearers Ix x * bearers Ix y)%nat) /\
    (x = y -> weight Ix x y = (bearers Ix x * (bearers Ix x - 1))%nat).
Proof.
  intros Ix d x y Iy leave H.
  pose proof (attempt_leaves Ix d x y Iy leave H) as ->.
  destruct (attempt_inv Ix d x y Iy true H) as (Hd & Ex & Ey & _ & _).
  assert (Hprop : propose Ix [d] = Some (x, y, Iy)) by (simpl; now rewrite H).
  destruct (proposal_shape Ix [d] x y Iy Hprop) as (Hxy & Hx & Hy & _).
  split; [assumption |]. split.
  - unfold labels_drawn. simpl fst. simpl snd. rewrite sort2_spec. congruence.
  - repeat (split; [assumption |]). split.
    + apply weight_distinct.
    + intros <-. apply weight_equal.
Qed.

(** ** The assignment during a run *)

Lemma sampler_prefix (ds : Dataset) (rs : list randomness) (k : nat) (I' : list Z) :
  sampler ds rs = Some I' ->
  exists I, sampler ds (firstn k rs) = Some I /\
            iterate ds I (skipn k rs) = Some I'.
Proof.
  unfold sampler. rewrite <- (firstn_skipn k rs) at 1. rewrite iterate_app.
  destruct (iterate ds (arange (TotalNum ds)) (firstn k rs)) as [I |]; simpl;
    [eauto | discriminate].
Qed.

(** C9: after any number of iterations the assignment has [TotalNum] entries
    and every entry is a label in [0, TotalNum); on a well-formed data set and
    with valid draws the run ends, in such an assignment. *)
Theorem assignment_in_range :
  forall (ds : Dataset) (rs : list randomness),
    (forall k I, sampler ds (firstn k rs) = Some I ->
                 assignment_ok (TotalNum ds) I) /\
    (well_formed ds = true ->
     Forall (fun r => valid_randomness (TotalNum ds) r = true) rs ->
     exists I, sampler ds rs = Some I /\ assignment_ok (TotalNum ds) I).
Proof.
  intros ds rs. split.
  - intros k I H. eapply iterate_ok; [apply arange_ok | exact H].
  - intros Hok Hrs.
    destruct (iterate_defined ds rs Hok Hrs (arange (TotalNum ds)) (arange_ok _))
      as (I & HI).
    exists I. split; [exact HI |].
    eapply iterate_ok; [apply arange_ok | exact HI].
Qed.

(** C10, as the loop has it: the labels are sorted so that [x <= y] and one
    position that bears [x] is relabelled [y]; a proposal differs from the
    current assignment at most in that position, whose label does not
    decrease (it grows exactly when [x] and [y] differ); so the label of
    every position never decreases from one step of a run to a later one, and
    position [i] bears a label that is at least [i] at every step from the
    identity assignment on. *)
Theorem labels_never_decrease :
  forall (ds : Dataset),
    (forall Ix draws x y Iy,
       propose Ix draws = Some (x, y, Iy) ->
       (x <= y)%Z /\
       exists k, (k < List.length Ix)%nat /\
         nth k Ix 0%Z = x /\ nth k Iy 0%Z = y /\
         forall q, q <> k -> nth q Iy 0%Z = nth q Ix 0%Z) /\
    (forall rs k I',
       sampler ds rs = Some I' ->
       exists I, sampler ds (firstn k rs) = Some I /\
         (forall q, (nth q I 0%Z <= nth q I' 0%Z)%Z) /\
         (forall i, (i < TotalNum ds)%nat -> (Z.of_nat i <= nth i I 0%Z)%Z)).
Proof.
  intros ds. split.
  - intros Ix draws x y Iy H.
    destruct (proposal_shape Ix draws x y Iy H) as (Hxy & _ & _ & k & Hk & Hkx & ->).
    split; [assumption |]. exists k. repeat split; try assumption.
    + rewrite set_at_nth by assumption. now rewrite Nat.eqb_refl.
    + intros q Hq. rewrite set_at_nth by assumption.
      destruct (Nat.eqb_spec q k); [contradiction | reflexivity].
  - intros rs k I' H.
    destruct (sampler_prefix ds rs k I' H) as (I & HI & Hrest).
    exists I. split; [assumption |]. split.
    + now apply (iterate_increases ds (skipn k rs)).
    + intros i Hi.
      pose proof (iterate_increases ds (firstn k rs) _ _ HI i) as Hle.
      now rewrite arange_nth in Hle.
Qed.

(** ** The small run, evaluated *)

Lemma demo_well_formed : well_formed demo = true.
Proof. reflexivity. Qed.

Lemma demo_first_proposal :
  propose (arange 3) [mkDraw 0 1 0] = Some (0%Z, 1%Z, [1; 1; 2]%Z).
Proof. reflexivity. Qed.

Lemma sampler_one (ds : Dataset) (r : randomness) :
  sampler ds [r] = iteration ds (arange (TotalNum ds)) r.
Proof.
  unfold sampler. simpl. now destruct (iteration ds (arange (TotalNum ds)) r).
Qed.

Lemma iteration_of_proposal (ds : Dataset) (Ix : list Z) (r : randomness)
    (x y : Z) (Iy : list Z) :
  propose Ix (draws r) = Some (x, y, Iy) ->
  iteration ds Ix r = sess_run ds Ix Iy x y (uniform r).
Proof. unfold iteration. now intros ->. Qed.

(** Some value of the uniform generator makes the first iteration accept the
    merge of the clusters 0 and 1. *)
Lemma merged_state_reachable :
  exists u : R,
    (0 < u < 1)%R /\
    sampler demo [mkRandomness [mkDraw 0 1 0] u] = Some [1; 1; 2]%Z.
Proof.
  destruct (spec_score_defined demo (arange 3) 0 1 demo_well_formed) as (sb & Hsb).
  destruct (spec_score_defined demo [1; 1; 2]%Z 0 1 demo_well_formed) as (sa & Hsa).
  set (t := (Rmin 0 (sa - sb) - 1)%R).
  assert (Ht : (t < 0)%R) by (unfold t; pose proof (Rmin_l 0 (sa - sb)); lra).
  exists (exp t). split.
  - split; [apply exp_pos |]. rewrite <- exp_0. now apply exp_increasing.
  - rewrite sampler_one.
    rewrite (iteration_of_proposal demo (arange (TotalNum demo))
               (mkRandomness [mkDraw 0 1 0] (exp t)) 0 1 [1; 1; 2]%Z
               demo_first_proposal).
    destruct (sess_run_scores demo (arange 3) [1; 1; 2]%Z 0 1 (exp t)
                demo_well_formed eq_refl eq_refl)
      as (sb' & sa' & Hsb' & Hsa' & Hrun).
    assert (sb' = sb) by congruence. assert (sa' = sa) by congruence. subst.
    simpl uniform. change (arange (TotalNum demo)) with (arange 3).
    rewrite Hrun.
    replace (accept (exp t) sb sa) with true; [reflexivity |].
    symmetry. apply accept_spec. rewrite ln_exp. unfold t. lra.
Qed.

(** C4, a selection on which the claim as written fails: the code 0 is looked
    up at position -1 of [Odds], which [tf.gather] refuses. *)
Lemma logLikeDisc_code_zero :
  let G := [[0%Z]] in
  G <> [] /\
  Forall (fun r => List.length r = 1%nat) G /\
  Forall (Forall (fun z => (0 <= z <= 2)%Z)) G /\
  logLikeDisc demo (render 1 G) = None /\
  logLikeDisc demo (render 1 G)
  <> Some (spec_logLikeDisc (odds_at_code demo) (categories 1 G)).
Proof.
  assert (E : logLikeDisc demo (render 1 [[0%Z]]) = None) by reflexivity.
  intros G. subst G.
  split; [discriminate |].
  split; [repeat constructor |].
  split; [repeat constructor; lia |].
  split; [exact E | rewrite E; discriminate].
Qed.

(** The pseudo-count of the single code 1 is the first entry of [Odds], not
    the second one. *)
Lemma alpha_of_code_one :
  category_alpha demo [1%Z] = Some ((1 - / 2) ^ 2 * 1)%R /\
  odds_at_code demo 1 = (2 * / 2 * (1 - / 2))%R /\
  ((1 - / 2) ^ 2 * 1 <> 2 * / 2 * (1 - / 2))%R.
Proof.
  split; [reflexivity |]. split; [reflexivity |]. lra.
Qed.

(** C5, a draw whose two labels are equal: positions 0 and 1 of the
    assignment [1; 1; 2] both bear label 1.  Two of the six outcomes give the
    labels (1, 1) and four give (1, 2). *)
Lemma equal_labels_drawn :
  attempt [1; 1; 2]%Z (mkDraw 0 1 0) = Some (1%Z, 1%Z, [1; 1; 2]%Z, true) /\
  List.length (outcomes 3) = 6%nat /\
  weight [1; 1; 2]%Z 1 1 = 2%nat /\
  weight [1; 1; 2]%Z 1 2 = 4%nat.
Proof. repeat split. Qed.

(** C6, a move between two singleton clusters that leaves the loop and is
    scored: from the identity assignment, labels 0 and 1. *)
Lemma singleton_move_is_scored :
  bearers (arange 3) 0 = 1%nat /\
  bearers (arange 3) 1 = 1%nat /\
  propose (arange 3) [mkDraw 0 1 0] = Some (0%Z, 1%Z, [1; 1; 2]%Z) /\
  iteration demo (arange 3) (mkRandomness [mkDraw 0 1 0] (/ 2))
  = sess_run demo (arange 3) [1; 1; 2]%Z 0 1 (/ 2).
Proof. repeat split. Qed.

(** C10, a proposal that changes nothing: the two positions drawn bear one
    label, so [x = y] and the relabelled position keeps its label. *)
Lemma proposal_without_change :
  propose [1; 1; 2]%Z [mkDraw 0 1 0] = Some (1%Z, 1%Z, [1; 1; 2]%Z) /\
  ~ (exists k, (nth k [1; 1; 2] 0 < nth k [1; 1; 2] 0)%Z).
Proof.
  split; [reflexivity |]. intros (k & Hk). lia.
Qed.

(** ** The statements at work on the small run *)

Lemma logLikeCont_two_rows_demo :
  let t := mkTensor 3 [[1; 2; 3]; [4; 5; 6]]%R in
  ((2 <= shape0 t)%nat \/ shape0 t = 0%nat) /\ logLikeCont demo t = 0%R.
Proof.
  intros t.
  assert (H : (2 <= shape0 t)%nat \/ shape0 t = 0%nat) by (left; unfold shape0, t; simpl; lia).
  split; [exact H | exact (logLikeCont_zero_unless_single_row demo t H)].
Defined.

Lemma logLikeCont_single_row_demo :
  Forall (fun r => List.length r = ObsNum demo) (phenotypes demo) /\
  logLikeCont demo (mkTensor 3 [[1; 2; 3]%R])
  = spec_logLikeCont 1 1 (spec_nu0 demo) (spec_mu0 demo) [1; 2; 3]%R.
Proof.
  assert (H : Forall (fun r => List.length r = ObsNum demo) (phenotypes demo))
    by (repeat constructor).
  split; [exact H | exact (logLikeCont_single_row demo [1; 2; 3]%R H)].
Defined.

Lemma acceptance_rule_demo :
  let r := mkRandomness [mkDraw 0 1 0] (/ 2)%R in
  well_formed demo = true /\
  List.length (arange 3) = TotalNum demo /\
  (0 < uniform r < 1)%R /\
  propose (arange 3) (draws r) = Some (0%Z, 1%Z, [1; 1; 2]%Z) /\
  exists scoreBefore scoreAfter,
    spec_score demo (arange 3) 0 1 = Some scoreBefore /\
    spec_score demo [1; 1; 2]%Z 0 1 = Some scoreAfter /\
    ((ln (uniform r) <= Rmin 0 (scoreAfter - scoreBefore))%R ->
       iteration demo (arange 3) r = Some [1; 1; 2]%Z) /\
    (~ (ln (uniform r) <= Rmin 0 (scoreAfter - scoreBefore))%R ->
       iteration demo (arange 3) r = Some (arange 3)).
Proof.
  intros r.
  assert (H1 : well_formed demo = true) by reflexivity.
  assert (H2 : List.length (arange 3) = TotalNum demo) by reflexivity.
  assert (H3 : (0 < uniform r < 1)%R) by (simpl; lra).
  assert (H4 : propose (arange 3) (draws r) = Some (0%Z, 1%Z, [1; 1; 2]%Z))
    by reflexivity.
  repeat (split; [assumption |]).
  exact (acceptance_rule demo (arange 3) r 0 1 [1; 1; 2]%Z H1 H2 H3 H4).
Defined.

Lemma logLikeDisc_formula_demo :
  let G := [[1; 2; 1]; [3; 2; 3]]%Z in
  G <> [] /\
  Forall (fun r => List.length r = 3%nat) G /\
  Forall (Forall (fun z => code_ok z = true)) G /\
  logLikeDisc demo (render 3 G)
  = Some (spec_logLikeDisc (odds_below_code demo) (categories 3 G)).
Proof.
  intros G.
  assert (H1 : G <> []) by discriminate.
  assert (H2 : Forall (fun r => List.length r = 3%nat) G) by (repeat constructor).
  assert (H3 : Forall (Forall (fun z => code_ok z = true)) G)
    by (repeat constructor).
  repeat (split; [assumption |]).
  exact (logLikeDisc_formula demo 3 G H1 H2 H3).
Defined.

Lemma drawn_labels_demo :
  attempt (arange 3) (mkDraw 0 1 0) = Some (0%Z, 1%Z, [1; 1; 2]%Z, true) /\
  (0, 1)%Z = labels_drawn (arange 3) (0%nat, 1%nat) /\
  weight (arange 3) 0 1 = (2 * bearers (arange 3) 0 * bearers (arange 3) 1)%nat.
Proof.
  assert (H : attempt (arange 3) (mkDraw 0 1 0)
              = Some (0%Z, 1%Z, [1; 1; 2]%Z, true)) by reflexivity.
  destruct (drawn_labels (arange 3) (mkDraw 0 1 0) 0 1 [1; 1; 2]%Z true H)
    as (_ & Hl & _ & _ & _ & Hw & _).
  split; [exact H |]. split; [exact Hl |]. apply Hw. lia.
Defined.

Lemma proposal_loop_exit_demo :
  valid_draw (List.length (arange 3)) (mkDraw 0 1 0) = true /\
  propose (arange 3) [mkDraw 0 1 0] = Some (0%Z, 1%Z, [1; 1; 2]%Z) /\
  ~ (bearers (arange 3) 0 = 1%nat /\ bearers [1; 1; 2]%Z 1 = 1%nat).
Proof.
  assert (Hd : valid_draw (List.length (arange 3)) (mkDraw 0 1 0) = true)
    by reflexivity.
  assert (Hp : propose (arange 3) [mkDraw 0 1 0] = Some (0%Z, 1%Z, [1; 1; 2]%Z))
    by reflexivity.
  destruct (proposal_loop_exit (arange 3) [mkDraw 0 1 0]) as (Hsafe & Hlive).
  destruct (Hlive (mkDraw 0 1 0) [] eq_refl Hd) as (x & y & Iy & _ & _).
  split; [exact Hd |]. split; [exact Hp |]. exact (Hsafe 0%Z 1%Z _ Hp).
Defined.

Lemma logLikeDisc_row_order_demo :
  let G := [[1; 2; 1]; [3; 2; 3]]%Z in
  let G' := [[3; 2; 3]; [1; 2; 1]]%Z in
  Forall (fun r => List.length r = 3%nat) G /\
  Forall (Forall (fun z => in_int32 z = true)) G /\
  Permutation G G' /\
  logLikeDisc demo (render 3 G') = logLikeDisc demo (render 3 G).
Proof.
  intros G G'.
  assert (H1 : Forall (fun r => List.length r = 3%nat) G) by (repeat constructor).
  assert (H2 : Forall (Forall (fun z => in_int32 z = true)) G)
    by (repeat constructor).
  assert (H3 : Permutation G G') by apply perm_swap.
  repeat (split; [assumption |]).
  exact (logLikeDisc_row_order demo 3 G G' H1 H2 H3).
Defined.

Lemma assignment_in_range_demo :
  let rs := [mkRandomness [mkDraw 0 1 0] (/ 2)%R;
             mkRandomness [mkDraw 2 0 1] (/ 3)%R] in
  well_formed demo = true /\
  Forall (fun r => valid_randomness (TotalNum demo) r = true) rs /\
  exists I, sampler demo rs = Some I /\ assignment_ok 3 I.
Proof.
  intros rs.
  assert (H1 : well_formed demo = true) by reflexivity.
  assert (H2 : Forall (fun r => valid_randomness (TotalNum demo) r = true) rs)
    by (repeat constructor).
  repeat (split; [assumption |]).
  exact (proj2 (assignment_in_range demo rs) H1 H2).
Defined.

Lemma labels_never_decrease_demo :
  let rs := [mkRandomness [mkDraw 0 1 0] (/ 2)%R;
             mkRandomness [mkDraw 2 0 1] (/ 3)%R] in
  exists I', sampler demo rs = Some I' /\
    exists I, sampler demo (firstn 1 rs) = Some I /\
      (forall q, (nth q I 0 <= nth q I' 0)%Z) /\
      (forall i, (i < 3)%nat -> (Z.of_nat i <= nth i I 0)%Z).
Proof.
  intros rs.
  assert (H1 : well_formed demo = true) by reflexivity.
  assert (H2 : Forall (fun r => valid_randomness (TotalNum demo) r = true) rs)
    by (repeat constructor).
  destruct (iterate_defined demo rs H1 H2 (arange 3) (arange_ok 3)) as (I' & HI').
  exists I'. split; [exact HI' |].
  exact (proj2 (labels_never_decrease demo) rs 1%nat I' HI').
Defined.

(** * Further properties of the graph and of the loop *)

(** ** The accept/reject node *)

Open Scope R_scope.

Lemma ln_negative (u : R) : 0 < u < 1 -> ln u < 0.
Proof. intros [H0 H1]. rewrite <- ln_1. now apply ln_increasing. Qed.

Lemma exp_le_mono (a b : R) : a <= b -> exp a <= exp b.
Proof.
  intros [H | ->]; [left; now apply exp_increasing | right; reflexivity].
Qed.

Lemma ln_le_mono (a b : R) : 0 < a -> a <= b -> ln a <= ln b.
Proof.
  intros Ha [H | ->]; [left; now apply ln_increasing | right; reflexivity].
Qed.

(** X1: for [u] in (0,1) the node accepts exactly when [u] is at most the
    ratio [exp (pY - pX)] of the two marginal likelihoods. *)
Theorem accept_metropolis_ratio :
  forall u px py : R,
    0 < u < 1 -> (accept u px py = true <-> u <= exp (py - px)).
Proof.
  intros u px py Hu. rewrite accept_spec. split; intros H.
  - rewrite <- (exp_ln u) by apply Hu. apply exp_le_mono.
    pose proof (Rmin_r 0 (py - px)). lra.
  - apply Rmin_glb.
    + left. now apply ln_negative.
    + rewrite <- (ln_exp (py - px)). apply ln_le_mono; [apply Hu | exact H].
Qed.

(** X2: a proposal whose score is not below the current one is accepted
    whatever [u] in (0,1) is drawn. *)
Theorem accept_when_not_worse :
  forall u px py : R, 0 < u < 1 -> px <= py -> accept u px py = true.
Proof.
  intros u px py Hu Hle. apply accept_spec. apply Rmin_glb.
  - left. now apply ln_negative.
  - pose proof (ln_negative u Hu). lra.
Qed.

Close Scope R_scope.

Lemma pX_swap (ds : Dataset) (index1 : list Z) (var1 var2 : Z) :
  pX ds index1 var1 var2 = pX ds index1 var2 var1.
Proof.
  unfold pX, Dxx, Cxx, Dxy, Cxy.
  destruct (rows_of (GeneData ds) (Dx ds index1) var1) as [d1 |];
    destruct (rows_of (PhenoData ds) (Cx ds index1) var1) as [c1 |];
    destruct (rows_of (GeneData ds) (Dx ds index1) var2) as [d2 |];
    destruct (rows_of (PhenoData ds) (Cx ds index1) var2) as [c2 |];
    simpl; try reflexivity;
    try (destruct (calcProb ds d1 c1); reflexivity);
    try (destruct (calcProb ds d2 c2); reflexivity).
  destruct (calcProb ds d1 c1) as [a |], (calcProb ds d2 c2) as [b |];
    simpl; try reflexivity.
  f_equal. ring.
Qed.

(** X3: the node does not depend on which of the two labels is fed as
    [var1] and which as [var2]. *)
Theorem sess_run_labels_swapped :
  forall (ds : Dataset) (index1 index2 : list Z) (var1 var2 : Z) (u : R),
    sess_run ds index1 index2 var1 var2 u = sess_run ds index1 index2 var2 var1 u.
Proof.
  intros ds index1 index2 var1 var2 u. unfold sess_run.
  rewrite (pX_swap ds index1 var1 var2).
  change (pY ds index2 var1 var2) with (pX ds index2 var1 var2).
  change (pY ds index2 var2 var1) with (pX ds index2 var2 var1).
  now rewrite (pX_swap ds index2 var1 var2).
Qed.

(** ** The selection nodes *)

Lemma filter_split_length {A} (p : A -> bool) (l : list A) :
  (List.length (filter p l) + List.length (filter (fun a => negb (p a)) l)
   = List.length l)%nat.
Proof.
  induction l as [| a l IH]; simpl; [reflexivity |].
  destruct (p a); simpl; lia.
Qed.

(** X4: on a well-formed data set the SNP rows and the trait rows selected
    for a label are both defined, have [ObsNum] columns, and together have
    one row for every position that bears the label. *)
Theorem selection_splits_cluster :
  forall (ds : Dataset) (index1 : list Z) (var1 : Z),
    well_formed ds = true ->
    List.length index1 = TotalNum ds ->
    exists D C,
      Dxx ds index1 var1 = Some D /\ Cxx ds index1 var1 = Some C /\
      ncols D = ObsNum ds /\ ncols C = ObsNum ds /\
      (shape0 D + shape0 C)%nat = bearers index1 var1.
Proof.
  intros ds a v Hok Hlen.
  exists (variant_rows ds a v), (trait_rows ds a v).
  split; [now apply Dxx_variant_rows |].
  split; [now apply Cxx_trait_rows |].
  split; [reflexivity |]. split; [reflexivity |].
  unfold shape0, variant_rows, trait_rows, bearers. simpl trows.
  rewrite !length_map, members_np_where.
  rewrite <- (filter_split_length (fun i => (i <? SNPNum ds)%nat) (members a v)).
  f_equal. f_equal. apply filter_ext. intros i. apply Nat.leb_antisym.
Qed.

Lemma firstn_incl {A} (n : nat) (l : list A) : incl (firstn n l) l.
Proof.
  intros a Ha. rewrite <- (firstn_skipn n l). apply in_or_app. now left.
Qed.

Lemma skipn_incl {A} (n : nat) (l : list A) : incl (skipn n l) l.
Proof.
  intros a Ha. rewrite <- (firstn_skipn n l). apply in_or_app. now right.
Qed.

Lemma np_where_absent (I part : list Z) (v : Z) :
  incl part I -> bearers I v = 0%nat -> np_where part v = [].
Proof.
  intros Hincl Hb. destruct (np_where part v) as [| p k] eqn:E; [reflexivity |].
  assert (Hp : In p (np_where part v)) by (rewrite E; now left).
  apply np_where_In in Hp. destruct Hp as [Hp Hv].
  assert (Hin : In v I) by (apply Hincl; rewrite <- Hv; now apply nth_In).
  destruct (In_nth I v 0%Z Hin) as (q & Hq & Hqv).
  assert (Hq' : In q (np_where I v)) by now apply np_where_In.
  unfold bearers in Hb. destruct (np_where I v); [destruct Hq' | discriminate].
Qed.

(** X5: a label that no position bears selects no row at all, and its score
    is 0, whatever the data set. *)
Theorem absent_label_scores_zero :
  forall (ds : Dataset) (index1 : list Z) (var1 : Z),
    bearers index1 var1 = 0%nat ->
    Dxx ds index1 var1 = Some (mkTensor (ObsNum ds) []) /\
    Cxx ds index1 var1 = Some (mkTensor (ObsNum ds) []) /\
    calcProb ds (mkTensor (ObsNum ds) []) (mkTensor (ObsNum ds) []) = Some 0%R.
Proof.
  intros ds a v Hb. split; [| split].
  - unfold Dxx, rows_of.
    change (where_equal Z.eqb (Dx ds a) v) with (np_where (Dx ds a) v).
    rewrite (np_where_absent a (Dx ds a) v); [reflexivity | | assumption].
    apply firstn_incl.
  - unfold Cxx, rows_of.
    change (where_equal Z.eqb (Cx ds a) v) with (np_where (Cx ds a) v).
    rewrite (np_where_absent a (Cx ds a) v); [reflexivity | | assumption].
    unfold Cx. intros z Hz. apply firstn_incl in Hz. now apply skipn_incl in Hz.
  - reflexivity.
Qed.

(** ** The loop *)

Lemma set_at_In (a : list Z) (p : nat) (y z : Z) :
  In z (set_at a p y) -> z = y \/ In z a.
Proof.
  revert p. induction a as [| b a IH]; intros [| p] Hz; simpl in *; try tauto.
  - destruct Hz as [<- | Hz]; auto.
  - destruct Hz as [<- | Hz]; auto.
    destruct (IH p Hz); auto.
Qed.

Lemma set_at_incl (a : list Z) (p : nat) (y : Z) :
  In y a -> incl (set_at a p y) a.
Proof.
  intros Hy z Hz. destruct (set_at_In a p y z Hz) as [-> | H]; assumption.
Qed.

Lemma set_at_same (a : list Z) (p : nat) :
  set_at a p (nth p a 0%Z) = a.
Proof.
  revert p. induction a as [| b a IH]; intros [| p]; simpl; try reflexivity.
  now rewrite IH.
Qed.

Lemma iteration_incl (ds : Dataset) (Ix Ix' : list Z) (r : randomness) :
  iteration ds Ix r = Some Ix' -> incl Ix' Ix.
Proof.
  intros H. apply iteration_cases in H.
  destruct H as (x & y & Iy & Hprop & [-> | ->]); [| apply incl_refl].
  apply proposal_shape in Hprop.
  destruct Hprop as (_ & _ & Hy & k & _ & _ & ->). now apply set_at_incl.
Qed.

Lemma iterate_incl (ds : Dataset) (rs : list randomness) :
  forall Ix I, iterate ds Ix rs = Some I -> incl I Ix.
Proof.
  induction rs as [| r rs IH]; intros Ix I; simpl.
  - intros [= <-]. apply incl_refl.
  - destruct (iteration ds Ix r) as [Ix' |] eqn:E; simpl; [| discriminate].
    intros H. eapply incl_tran; [apply (IH _ _ H) |].
    eapply iteration_incl; eassumption.
Qed.

(** X6: the loop never brings in a label: every label of the assignment at
    the end of a run is a label of the assignment after any earlier
    iteration, so a cluster that has lost its last member stays empty. *)
Theorem no_label_comes_back :
  forall (ds : Dataset) (rs : list randomness) (k : nat) (I' : list Z),
    sampler ds rs = Some I' ->
    exists I, sampler ds (firstn k rs) = Some I /\ incl I' I.
Proof.
  intros ds rs k I' H.
  destruct (sampler_prefix ds rs k I' H) as (I & HI & Hrest).
  exists I. split; [assumption |]. eapply iterate_incl; eassumption.
Qed.

(** X7: the last variable keeps its own label [TotalNum - 1] through the
    whole run. *)
Theorem last_variable_keeps_label :
  forall (ds : Dataset) (rs : list randomness) (I : list Z),
    (0 < TotalNum ds)%nat ->
    sampler ds rs = Some I ->
    nth (TotalNum ds - 1) I 0%Z = Z.of_nat (TotalNum ds - 1).
Proof.
  intros ds rs I Hn H.
  pose proof (iterate_ok ds (TotalNum ds) rs _ _ (arange_ok _) H) as [Hlen Hrange].
  pose proof (iterate_increases ds rs _ _ H (TotalNum ds - 1)%nat) as Hle.
  rewrite arange_nth in Hle by lia.
  unfold labels_in_range in Hrange. rewrite Forall_forall in Hrange.
  assert (Hin : In (nth (TotalNum ds - 1) I 0%Z) I) by (apply nth_In; lia).
  specialize (Hrange _ Hin). lia.
Qed.

(** X8: with fewer than two variables the first iteration fails: there are
    no two positions to draw. *)
Theorem sampler_needs_two_variables :
  forall (ds : Dataset) (rs : list randomness),
    (TotalNum ds < 2)%nat -> rs <> [] -> sampler ds rs = None.
Proof.
  intros ds rs Hn Hrs. destruct rs as [| r rs]; [contradiction |].
  unfold sampler. simpl.
  assert (E : iteration ds (arange (TotalNum ds)) r = None).
  { unfold iteration. destruct (draws r) as [| d rest]; [reflexivity |].
    simpl. unfold attempt. rewrite choice2_valid.
    destruct (valid_draw (List.length (arange (TotalNum ds))) d) eqn:Hd;
      [| reflexivity].
    apply valid_draw_spec in Hd. rewrite arange_length in Hd. lia. }
  now rewrite E.
Qed.

(** X9: when the two positions drawn bear one label the iteration leaves the
    assignment as it is, whatever [u] is drawn. *)
Theorem same_label_draw_changes_nothing :
  forall (ds : Dataset) (Ix : list Z) (r : randomness) (d : draw) (rest : list draw),
    well_formed ds = true ->
    List.length Ix = TotalNum ds ->
    draws r = d :: rest ->
    valid_draw (List.length Ix) d = true ->
    nth (pos1 d) Ix 0%Z = nth (pos2 d) Ix 0%Z ->
    iteration ds Ix r = Some Ix.
Proof.
  intros ds Ix r d rest Hok Hlen Hdraws Hd Hsame.
  destruct (propose_first Ix d rest Hd) as (x & y & Iy & Hatt & Hprop).
  destruct (attempt_inv Ix d x y Iy true Hatt)
    as (_ & Ex & Ey & (p & Hp & EIy) & _).
  rewrite Hsame, Z.min_id in Ex. rewrite Hsame, Z.max_id in Ey.
  apply np_where_In in Hp. destruct Hp as [_ Hpx].
  assert (E : Iy = Ix).
  { rewrite EIy, Ey, <- Ex, <- Hpx. apply set_at_same. }
  rewrite E in Hprop. unfold iteration. rewrite Hdraws, Hprop. simpl bind.
  destruct (sess_run_scores ds Ix Ix x y (uniform r) Hok Hlen Hlen)
    as (sb & sa & _ & _ & ->).
  now destruct (accept (uniform r) sb sa).
Qed.

(** ** The value of [lgamma] at 1 *)

Open Scope R_scope.

Lemma log_fact_sum (n : nat) :
  sum_f_R0 (fun k => ln (Rabs (1 + INR k))) n = ln (INR (fact (S n))).
Proof.
  induction n as [| n IH].
  - simpl. now rewrite Rplus_0_r, Rabs_R1.
  - change (sum_f_R0 (fun k => ln (Rabs (1 + INR k))) (S n))
      with (sum_f_R0 (fun k => ln (Rabs (1 + INR k))) n
            + ln (Rabs (1 + INR (S n)))).
    rewrite IH, (fact_simpl (S n)), mult_INR.
    rewrite ln_mult; [| apply lt_0_INR; lia | apply INR_fact_lt_0].
    replace (1 + INR (S n)) with (INR (S (S n))) by (rewrite (S_INR (S n)); ring).
    rewrite Rabs_pos_eq by apply pos_INR. ring.
Qed.

Lemma lgamma_approx_1 (n : nat) :
  (1 <= n)%nat -> lgamma_approx 1 n = - ln (1 + / INR n).
Proof.
  intros Hn. unfold lgamma_approx. rewrite log_fact_sum.
  assert (Hpos : 0 < INR n) by (apply lt_0_INR; lia).
  rewrite (fact_simpl n), mult_INR.
  rewrite ln_mult; [| apply lt_0_INR; lia | apply INR_fact_lt_0].
  replace (INR (S n)) with (INR n * (1 + / INR n))
    by (rewrite S_INR; field; lra).
  rewrite ln_mult; [ring | assumption |].
  pose proof (Rinv_0_lt_compat _ Hpos). lra.
Qed.

Lemma ln_one_plus (x : R) : 0 < x -> 0 < ln (1 + x) < x.
Proof.
  intros Hx. split.
  - rewrite <- ln_1. apply ln_increasing; lra.
  - rewrite <- (ln_exp x) at 2. apply ln_increasing; [lra |].
    apply exp_ineq1. lra.
Qed.

Lemma lgamma_approx_1_cv : Un_cv (lgamma_approx 1) 0.
Proof.
  intros eps Heps. destruct (archimed_cor1 eps Heps) as (N & HN & HNpos).
  exists N. intros n Hn. unfold Rdist. rewrite Rminus_0_r.
  rewrite lgamma_approx_1 by lia. rewrite Rabs_Ropp.
  assert (HposN : 0 < INR N) by now apply lt_0_INR.
  assert (Hposn : 0 < INR n) by (apply lt_0_INR; lia).
  assert (Hle : / INR n <= / INR N).
  { apply Rinv_le_contravar; [assumption |]. apply le_INR. lia. }
  pose proof (ln_one_plus (/ INR n) (Rinv_0_lt_compat _ Hposn)) as [H1 H2].
  rewrite Rabs_pos_eq by lra. lra.
Qed.

Lemma lgamma_1 : lgamma 1 = 0.
Proof.
  apply (UL_sequence (lgamma_approx 1)); [| exact lgamma_approx_1_cv].
  unfold lgamma. apply epsilon_spec. exists 0. exact lgamma_approx_1_cv.
Qed.

Close Scope R_scope.

(** ** The discrete likelihood at its edges *)

Lemma unique_constant {A} (eqb : A -> A -> bool) (a : A) (l : list A) :
  (forall b, eqb b b = true) ->
  (forall b, In b l -> b = a) -> l <> [] -> unique eqb l = [a].
Proof.
  intros Hrefl. induction l as [| b l IH]; intros Hall Hne; [contradiction |].
  simpl. rewrite (Hall b) by now left.
  destruct l as [| b' l]; [reflexivity |].
  rewrite IH; [| intros c Hc; apply Hall; now right | discriminate].
  simpl. now rewrite Hrefl.
Qed.

Lemma count_constant {A} (eqb : A -> A -> bool) (a : A) (l : list A) :
  (forall b, eqb b b = true) ->
  (forall b, In b l -> b = a) -> count eqb l a = List.length l.
Proof.
  intros Hrefl Hall. unfold count. rewrite filter_all; [reflexivity |].
  intros b Hb. rewrite (Hall b Hb). apply Hrefl.
Qed.

(** X10: on a selection without any row (and with at least one observation)
    all observations fall in the one empty category, whose pseudo-count is
    the empty product 1, and [logLikeDisc] is 0. *)
Theorem logLikeDisc_no_row :
  forall (ds : Dataset) (n : nat),
    (1 <= n)%nat -> logLikeDisc ds (mkTensor n []) = Some 0%R.
Proof.
  intros ds n Hn. unfold logLikeDisc, unique_with_counts.
  set (v := reduce_join (mkTensor n [])).
  assert (Hall : forall b, In b v -> b = ""%string).
  { intros b Hb. unfold v, reduce_join in Hb. apply in_map_iff in Hb.
    now destruct Hb as (j & <- & _). }
  assert (Hlen : List.length v = n) by apply reduce_join_length.
  assert (Hne : v <> []) by (destruct v; [simpl in Hlen; lia | discriminate]).
  rewrite (unique_constant String.eqb ""%string v String.eqb_refl Hall Hne).
  simpl map. rewrite (count_constant String.eqb ""%string v String.eqb_refl Hall), Hlen.
  simpl. f_equal. rewrite lgamma_1, (Rplus_0_r (1 + INR n)). ring.
Qed.

Lemma unique_complete {A} (eqb : A -> A -> bool) (l : list A) (a : A) :
  (forall b b', eqb b b' = true <-> b = b') ->
  In a l -> In a (unique eqb l).
Proof.
  intros Hspec. induction l as [| b l IH]; simpl; [tauto |].
  intros [-> | Ha]; [now left |].
  destruct (eqb a b) eqn:E.
  - left. symmetry. now apply Hspec.
  - right. apply filter_In. split; [now apply IH | now rewrite E].
Qed.

Lemma mapM_fails {A B} (f : A -> option B) (l : list A) (a : A) :
  In a l -> f a = None -> mapM f l = None.
Proof.
  induction l as [| b l IH]; simpl; [tauto |].
  intros [-> | Ha] Hf.
  - now rewrite Hf.
  - destruct (f b); simpl; [| reflexivity]. now rewrite (IH Ha Hf).
Qed.

Lemma wrap32_id (z : Z) : in_int32 z = true -> wrap32 z = z.
Proof.
  unfold in_int32, wrap32. rewrite andb_true_iff, Z.leb_le, Z.ltb_lt.
  intros [H1 H2]. rewrite Z.mod_small; lia.
Qed.

Lemma gather_bad_code (ds : Dataset) (z : Z) :
  in_int32 z = true -> code_ok z = false ->
  gather1 (Odds ds) (sub32 z 1) = None.
Proof.
  intros Hint Hbad. unfold sub32.
  destruct (Z.eq_dec z (- 2 ^ 31)) as [-> | Hmin]; [reflexivity |].
  assert (Hin : in_int32 (z - 1) = true).
  { unfold in_int32 in *. rewrite andb_true_iff, Z.leb_le, Z.ltb_lt in *. lia. }
  rewrite (wrap32_id _ Hin). unfold gather1.
  destruct (Z.ltb_spec (z - 1) 0) as [_ | Hpos]; [reflexivity |].
  apply nth_error_None. simpl.
  unfold code_ok in Hbad. apply andb_false_iff in Hbad.
  rewrite Z.leb_gt, Z.leb_gt in Hbad. lia.
Qed.

Lemma category_at (n j : nat) (G : list (list Z)) :
  (j < n)%nat -> In (column 0%Z (mkTensor n G) j) (categories n G).
Proof.
  intros Hj. unfold categories. apply in_map. apply in_seq. lia.
Qed.

(** X11: one code outside 1, 2, 3 anywhere in the selected rows makes
    [logLikeDisc] fail: its index into [Odds] is out of range. *)
Theorem logLikeDisc_rejects_code :
  forall (ds : Dataset) (n : nat) (G : list (list Z)) (r : list Z) (z : Z),
    Forall (fun r => List.length r = n) G ->
    Forall (Forall (fun z => in_int32 z = true)) G ->
    In r G -> In z r -> code_ok z = false ->
    logLikeDisc ds (render n G) = None.
Proof.
  intros ds n G r z Hshape Hint Hr Hz Hbad.
  rewrite (logLikeDisc_render ds n G Hshape Hint). unfold disc_of_categories.
  destruct (In_nth r z 0%Z Hz) as (j & Hj & Hjz).
  rewrite Forall_forall in Hshape. rewrite (Hshape r Hr) in Hj.
  set (c := column 0%Z (mkTensor n G) j).
  assert (Hc : In c (unique codes_eqb (categories n G))).
  { apply unique_complete; [apply codes_eqb_spec | now apply category_at]. }
  assert (Hzc : In z c).
  { unfold c, column. simpl trows. rewrite <- Hjz.
    apply (in_map (fun r => nth j r 0%Z)), Hr. }
  rewrite (mapM_fails (category_alpha ds) _ c Hc); [reflexivity |].
  unfold category_alpha.
  rewrite (mapM_fails (fun z => gather1 (Odds ds) (sub32 z 1)) c z Hzc);
    [reflexivity |].
  apply gather_bad_code; [| assumption].
  rewrite Forall_forall in Hint. specialize (Hint r Hr).
  rewrite Forall_forall in Hint. now apply Hint.
Qed.

(** ** Every observation is counted once *)

Lemma filter_comm {A} (p q : A -> bool) (l : list A) :
  filter p (filter q l) = filter q (filter p l).
Proof.
  rewrite !filter_filter_and. apply filter_ext. intros a. apply andb_comm.
Qed.

Section Counts.

Context {A : Type}.
Variable eqb : A -> A -> bool.
Hypothesis eqb_spec : forall a a', eqb a a' = true <-> a = a'.

Lemma eqb_refl_of_spec (a : A) : eqb a a = true.
Proof. now apply eqb_spec. Qed.

Lemma unique_filter_other (a : A) (l : list A) :
  filter (fun b => negb (eqb b a)) (unique eqb l)
  = unique eqb (filter (fun b => negb (eqb b a)) l).
Proof.
  induction l as [| b l IH]; simpl; [reflexivity |].
  destruct (eqb b a) eqn:E; simpl.
  - apply eqb_spec in E. subst b. rewrite <- IH.
    rewrite filter_filter_and. apply filter_ext. intros c.
    now destruct (eqb c a).
  - f_equal. rewrite <- IH. apply filter_comm.
Qed.

Lemma count_filter_other (a c : A) (l : list A) :
  eqb c a = false ->
  count eqb (filter (fun b => negb (eqb b a)) l) c = count eqb l c.
Proof.
  intros Hca. unfold count. rewrite filter_comm. f_equal.
  apply filter_all. intros b Hb. apply filter_In in Hb. destruct Hb as [_ Hb].
  destruct (eqb b a) eqn:E; [| reflexivity].
  apply eqb_spec in E. apply eqb_spec in Hb.
  rewrite <- Hb, E, eqb_refl_of_spec in Hca. discriminate.
Qed.

Lemma counts_total_aux (m : nat) :
  forall l, (List.length l <= m)%nat ->
    list_sum (map (count eqb l) (unique eqb l)) = List.length l.
Proof.
  induction m as [| m IH]; intros [| a l] Hlen; simpl in *; try reflexivity;
    try lia.
  rewrite unique_filter_other.
  pose proof (filter_split_length (fun b => eqb b a) l) as Hsplit.
  remember (filter (fun b => negb (eqb b a)) l) as l' eqn:El'.
  assert (Hl' : (List.length l' <= m)%nat) by lia.
  rewrite (map_ext_in (count eqb (a :: l)) (count eqb l')).
  - rewrite (IH l' Hl'). unfold count at 1. simpl. rewrite eqb_refl_of_spec.
    simpl. lia.
  - intros c Hc. apply unique_incl in Hc. rewrite El' in Hc.
    apply filter_In in Hc. destruct Hc as [_ Hc]. apply negb_true_iff in Hc.
    rewrite El', (count_filter_other a c l Hc).
    unfold count. simpl.
    destruct (eqb a c) eqn:E; [| reflexivity].
    apply eqb_spec in E. subst. now rewrite eqb_refl_of_spec in Hc.
Qed.

Lemma counts_total (l : list A) :
  list_sum (map (count eqb l) (unique eqb l)) = List.length l.
Proof. apply (counts_total_aux (List.length l)). lia. Qed.

End Counts.

Lemma reduce_sum_map_plus {A} (f g : A -> R) (l : list A) :
  reduce_sum (map (fun a => (f a + g a)%R) l)
  = (reduce_sum (map f l) + reduce_sum (map g l))%R.
Proof.
  induction l as [| a l IH]; simpl; [ring | rewrite IH; ring].
Qed.

Lemma reduce_sum_INR (l : list nat) :
  reduce_sum (map INR l) = INR (list_sum l).
Proof.
  induction l as [| a l IH]; simpl; [reflexivity |].
  now rewrite IH, plus_INR.
Qed.

Lemma categories_length (n : nat) (G : list (list Z)) :
  List.length (categories n G) = n.
Proof. unfold categories. now rewrite length_map, length_seq. Qed.

(** X12: the counts of the distinct categories add up to the number of
    observations, so the last term of [logLikeDisc] is [lgamma] of the number
    of observations plus the pseudo-counts of the categories that occur. *)
Theorem logLikeDisc_counts_every_observation :
  forall (ds : Dataset) (n : nat) (G : list (list Z)),
    Forall (fun r => List.length r = n) G ->
    Forall (Forall (fun z => code_ok z = true)) G ->
    let cats := unique codes_eqb (categories n G) in
    let alpha := spec_alpha (odds_below_code ds) in
    list_sum (map (count codes_eqb (categories n G)) cats) = n /\
    logLikeDisc ds (render n G)
    = Some (reduce_sum
              (map (fun c =>
                      lgamma (INR (count codes_eqb (categories n G) c) + alpha c)
                      - lgamma (alpha c)) cats)
            - lgamma (INR n + reduce_sum (map alpha cats)))%R.
Proof.
  intros ds n G Hshape Hcodes cats alpha.
  assert (Hsum : list_sum (map (count codes_eqb (categories n G)) cats) = n).
  { unfold cats. rewrite (counts_total codes_eqb codes_eqb_spec).
    apply categories_length. }
  split; [exact Hsum |].
  rewrite (logLikeDisc_categories ds n G Hshape Hcodes).
  unfold spec_logLikeDisc. fold cats. fold alpha. do 3 f_equal.
  rewrite (reduce_sum_map_plus
             (fun c => INR (count codes_eqb (categories n G) c)) alpha cats).
  f_equal.
  rewrite <- (map_map (count codes_eqb (categories n G)) INR cats).
  now rewrite reduce_sum_INR, Hsum.
Qed.

(** X13: the string pipeline of [logLikeDisc] (join the columns, take the
    distinct strings with their counts, split them, fill the sparse tensor,
    parse, subtract one) yields, for the distinct categories in the order of
    their first occurrence, their codes less one and their numbers of
    observations; the filler of the dense conversion is never used. *)
Theorem category_index_pipeline :
  forall (n : nat) (G : list (list Z)) (default_value : string),
    Forall (fun r => List.length r = n) G ->
    Forall (Forall (fun z => in_int32 z = true)) G ->
    let uc := unique_with_counts String.eqb (reduce_join (render n G)) in
    let cats := unique codes_eqb (categories n G) in
    mapM (mapM (fun s => z <- string_to_number s ;; Some (sub32 z 1)))
         (sparse_tensor_to_dense (string_split (fst uc)) default_value)
    = Some (map (map (fun z => sub32 z 1)) cats) /\
    snd uc = map (count codes_eqb (categories n G)) cats.
Proof.
  intros n G d Hshape Hint uc cats. unfold uc, unique_with_counts.
  simpl fst. simpl snd.
  rewrite (reduce_join_render n G Hshape).
  rewrite (unique_map_inj codes_eqb String.eqb codes_eqb_spec string_eqb_spec
             key key_inj).
  fold cats.
  assert (HU : forall c, In c cats -> In c (categories n G))
    by (intros c; apply unique_incl).
  split.
  - unfold string_split. rewrite map_map.
    rewrite (map_ext _ (map str) split_key).
    rewrite (sparse_tensor_to_dense_full (List.length G)).
    + rewrite mapM_map.
      rewrite (mapM_ext_in _ (fun c => Some (map (fun z => sub32 z 1) c))).
      * apply mapM_total.
      * intros c Hc. apply parse_codes.
        pose proof (category_codes (fun z => in_int32 z = true) n G eq_refl Hint)
          as H.
        rewrite Forall_forall in H. apply H, HU, Hc.
    + apply Forall_forall. intros r Hr. apply in_map_iff in Hr.
      destruct Hr as (c & <- & Hc). rewrite length_map.
      apply (category_length n G), HU, Hc.
  - rewrite map_map. apply map_ext. intros c.
    apply (count_map_inj codes_eqb String.eqb codes_eqb_spec string_eqb_spec
             key key_inj).
Qed.

(** X14: when all the observations fall in one category, [logLikeDisc] is
    minus [lgamma] of the pseudo-count of that category, whatever the number
    of observations. *)
Theorem logLikeDisc_single_category :
  forall (ds : Dataset) (n : nat) (G : list (list Z)) (c : list Z),
    (1 <= n)%nat ->
    Forall (fun r => List.length r = n) G ->
    Forall (Forall (fun z => code_ok z = true)) G ->
    (forall c', In c' (categories n G) -> c' = c) ->
    logLikeDisc ds (render n G)
    = Some (- lgamma (spec_alpha (odds_below_code ds) c))%R.
Proof.
  intros ds n G c Hn Hshape Hcodes Hall.
  rewrite (logLikeDisc_categories ds n G Hshape Hcodes).
  unfold spec_logLikeDisc.
  assert (Hne : categories n G <> []).
  { pose proof (categories_length n G) as H.
    destruct (categories n G); [simpl in H; lia | discriminate]. }
  assert (Hrefl : forall b, codes_eqb b b = true)
    by (intros b; now apply codes_eqb_spec).
  rewrite (unique_constant codes_eqb c (categories n G) Hrefl Hall Hne).
  simpl. f_equal.
  rewrite (Rplus_0_r (INR (count codes_eqb (categories n G) c)
                      + spec_alpha (odds_below_code ds) c)).
  ring.
Qed.

(** ** Both kinds of variates *)

Lemma logLikeCont_not_single (ds : Dataset) (t : tensor R) :
  shape0 t <> 1%nat -> logLikeCont ds t = 0%R.
Proof.
  intros H. unfold logLikeCont.
  destruct (Nat.eqb_spec (shape0 t) 1); [contradiction | reflexivity].
Qed.

Lemma transpose_shape0 {A} (d : A) (t : tensor A) :
  shape0 (transpose d t) = ncols t.
Proof. unfold transpose, shape0. simpl. now rewrite length_map, length_seq. Qed.

Lemma select_fn_many_traits (ds : Dataset) (discTensor : tensor string)
    (contTensor : tensor R) (elem : string) :
  (2 <= shape0 contTensor)%nat ->
  (ncols discTensor <= ncols contTensor)%nat ->
  select_fn ds (reduce_join discTensor) contTensor elem = Some 0%R.
Proof.
  intros Hrows Hn. unfold select_fn.
  rewrite (gather_nth [] (trows (transpose 0%R contTensor))).
  - simpl bind. f_equal. apply logLikeCont_not_single.
    rewrite transpose_shape0. simpl. lia.
  - intros i Hi. apply where_equal_bound in Hi.
    rewrite reduce_join_length in Hi.
    unfold transpose. simpl trows. rewrite length_map, length_seq. lia.
Qed.

Lemma reduce_sum_zeros {A} (l : list A) :
  reduce_sum (map (fun _ => 0%R) l) = 0%R.
Proof.
  induction l as [| a l IH]; simpl; [reflexivity | rewrite IH; ring].
Qed.

Lemma logLikeDepe_many_traits (ds : Dataset) (discTensor : tensor string)
    (contTensor : tensor R) :
  (2 <= shape0 contTensor)%nat ->
  (ncols discTensor <= ncols contTensor)%nat ->
  logLikeDepe ds discTensor contTensor = logLikeDisc ds discTensor.
Proof.
  intros Hrows Hn. unfold logLikeDepe.
  rewrite (mapM_ext_in _ (fun _ => Some 0%R)).
  - rewrite mapM_total. simpl bind. rewrite reduce_sum_zeros.
    destruct (logLikeDisc ds discTensor) as [d |]; simpl; [| reflexivity].
    f_equal. ring.
  - intros elem _. now apply select_fn_many_traits.
Qed.

(** X15: two or more trait rows in a selection contribute nothing:
    [calcProb] gives what it gives for the SNP rows alone. *)
Theorem traits_beyond_one_are_ignored :
  forall (ds : Dataset) (discRows : tensor string) (contRows : tensor R),
    (2 <= shape0 contRows)%nat ->
    (ncols discRows <= ncols contRows)%nat ->
    calcProb ds discRows contRows
    = calcProb ds discRows (mkTensor (ncols contRows) []).
Proof.
  intros ds D C Hrows Hn. rewrite !calcProb_cases. simpl trows.
  pose proof (logLikeDepe_many_traits ds D C Hrows Hn) as Hdepe.
  pose proof (logLikeCont_not_single ds C) as Hcont.
  unfold shape0 in Hrows, Hcont.
  destruct (trows D) as [| r D'], (trows C) as [| r' C'] eqn:EC;
    simpl in Hrows; try lia.
  - f_equal. apply Hcont. simpl. lia.
  - exact Hdepe.
Qed.

Lemma where_equal_filter {A} (eqb : A -> A -> bool) (d : A) (v : list A) (x : A) :
  where_equal eqb v x
  = filter (fun p => eqb (nth p v d) x) (seq 0 (List.length v)).
Proof.
  unfold where_equal.
  assert (H : forall s,
    map fst (filter (fun p => eqb (snd p) x) (combine (seq s (List.length v)) v))
    = filter (fun p => eqb (nth (p - s) v d) x) (seq s (List.length v))).
  { induction v as [| a v IH]; intros s; [reflexivity |].
    simpl. rewrite Nat.sub_diag. destruct (eqb a x); simpl; rewrite IH.
    - f_equal. apply filter_ext_in. intros p Hp. apply in_seq in Hp.
      replace (p - s)%nat with (S (p - S s)) by lia. reflexivity.
    - apply filter_ext_in. intros p Hp. apply in_seq in Hp.
      replace (p - s)%nat with (S (p - S s)) by lia. reflexivity. }
  rewrite H. apply filter_ext. intros p. now rewrite Nat.sub_0_r.
Qed.

Lemma observations_of_key (cats : list (list Z)) (c : list Z) :
  where_equal String.eqb (map key cats) (key c) = observations_of cats c.
Proof.
  rewrite (where_equal_filter String.eqb (key [])), length_map.
  unfold observations_of. apply filter_ext. intros j.
  rewrite (map_nth key cats [] j).
  apply (eqb_map_inj codes_eqb String.eqb codes_eqb_spec string_eqb_spec
           key key_inj).
Qed.

Lemma observations_of_bound (cats : list (list Z)) (c : list Z) (j : nat) :
  In j (observations_of cats c) -> (j < List.length cats)%nat.
Proof.
  unfold observations_of. rewrite filter_In, in_seq. lia.
Qed.

Lemma select_fn_one_trait (ds : Dataset) (cats : list (list Z)) (ys : list R)
    (c : list Z) :
  List.length ys = List.length cats ->
  select_fn ds (map key cats) (mkTensor (List.length cats) [ys]) (key c)
  = Some (logLikeCont ds
            (mkTensor (List.length (observations_of cats c))
                      [values_at ys (observations_of cats c)])).
Proof.
  intros Hlen. unfold select_fn. rewrite observations_of_key.
  set (P := observations_of cats c).
  set (n := List.length cats).
  rewrite (gather_nth [] (trows (transpose 0%R (mkTensor n [ys])))).
  - simpl bind. do 2 f_equal. unfold transpose, shape0. simpl.
    rewrite !length_map. f_equal. f_equal.
    unfold column at 1. simpl. rewrite map_map. unfold values_at.
    apply map_ext_in. intros j Hj. apply observations_of_bound in Hj. fold n in Hj.
    rewrite (nth_indep _ [] (column 0%R (mkTensor n [ys]) 0))
      by (rewrite length_map, length_seq; exact Hj).
    rewrite (map_nth (column 0%R (mkTensor n [ys])) (seq 0 n) 0%nat j).
    rewrite seq_nth by exact Hj. reflexivity.
  - intros i Hi. apply observations_of_bound in Hi.
    unfold transpose. simpl. rewrite length_map, length_seq. exact Hi.
Qed.

(** X16: with one trait row, [logLikeDepe] is the sum, over the distinct
    categories of the SNP rows in the order of their first occurrence, of
    [logLikeCont] of the trait values of the observations in that category,
    plus [logLikeDisc] of the SNP rows. *)
Theorem logLikeDepe_one_trait :
  forall (ds : Dataset) (n : nat) (G : list (list Z)) (ys : list R),
    Forall (fun r => List.length r = n) G ->
    List.length ys = n ->
    let cats := categories n G in
    logLikeDepe ds (render n G) (mkTensor n [ys])
    = (disc <- logLikeDisc ds (render n G) ;;
       Some (reduce_sum
               (map (fun c =>
                       logLikeCont ds
                         (mkTensor (List.length (observations_of cats c))
                                   [values_at ys (observations_of cats c)]))
                    (unique codes_eqb cats))
             + disc)%R).
Proof.
  intros ds n G ys Hshape Hlen cats. unfold logLikeDepe.
  rewrite (reduce_join_render n G Hshape). fold cats.
  rewrite (unique_map_inj codes_eqb String.eqb codes_eqb_spec string_eqb_spec
             key key_inj).
  rewrite mapM_map.
  assert (Hn : n = List.length cats)
    by (unfold cats; now rewrite categories_length).
  rewrite (mapM_ext_in _
    (fun c => Some (logLikeCont ds
                      (mkTensor (List.length (observations_of cats c))
                                [values_at ys (observations_of cats c)])))).
  - rewrite mapM_total. reflexivity.
  - intros c _. rewrite Hn. apply select_fn_one_trait. congruence.
Qed.

(** ** The order of the observations *)

Lemma reduce_sum_perm (u v : list R) :
  Permutation u v -> reduce_sum u = reduce_sum v.
Proof.
  induction 1 as [| a u v _ IH | a b u | u v w _ IH1 _ IH2]; simpl.
  - reflexivity.
  - now rewrite IH.
  - ring.
  - now rewrite IH1.
Qed.

(** X17: [logLikeCont] of one trait row does not depend on the order of its
    observations. *)
Theorem logLikeCont_observation_order :
  forall (ds : Dataset) (n : nat) (ys ys' : list R),
    Permutation ys ys' ->
    logLikeCont ds (mkTensor n [ys']) = logLikeCont ds (mkTensor n [ys]).
Proof.
  intros ds n ys ys' HP. unfold logLikeCont, func1, reduce_mean, shape0, shape1.
  simpl trows. simpl ncols. simpl List.length. rewrite !concat_single.
  rewrite (reduce_sum_perm ys ys' HP).
  set (means := (reduce_sum ys' / INR (1 * n))%R).
  rewrite (reduce_sum_perm (map (fun y => Rsqr (y - means)) ys)
                           (map (fun y => Rsqr (y - means)) ys'))
    by now apply Permutation_map.
  reflexivity.
Qed.

Section CountsUnderPermutation.

Context {A : Type}.
Variable eqb : A -> A -> bool.
Hypothesis eqb_spec : forall a a', eqb a a' = true <-> a = a'.

Lemma unique_NoDup (l : list A) : NoDup (unique eqb l).
Proof.
  induction l as [| a l IH]; simpl; constructor.
  - intros H. apply filter_In in H. destruct H as [_ H].
    now rewrite (eqb_refl_of_spec eqb eqb_spec a) in H.
  - now apply NoDup_filter.
Qed.

Lemma unique_perm (l l' : list A) :
  Permutation l l' -> Permutation (unique eqb l) (unique eqb l').
Proof.
  intros HP. apply NoDup_Permutation; try apply unique_NoDup.
  intros a. split; intros H; apply (unique_complete eqb _ a eqb_spec);
    apply unique_incl in H.
  - eapply Permutation_in; eassumption.
  - eapply Permutation_in; [apply Permutation_sym |]; eassumption.
Qed.

Lemma count_perm (l l' : list A) (a : A) :
  Permutation l l' -> count eqb l a = count eqb l' a.
Proof.
  unfold count.
  induction 1 as [| b l l' _ IH | b c l | l l' l'' _ IH1 _ IH2]; simpl.
  - reflexivity.
  - destruct (eqb b a); simpl; now rewrite IH.
  - destruct (eqb b a), (eqb c a); reflexivity.
  - now rewrite IH1.
Qed.

End CountsUnderPermutation.

Lemma spec_logLikeDisc_perm (odds_of : Z -> R) (cs cs' : list (list Z)) :
  Permutation cs cs' ->
  spec_logLikeDisc odds_of cs = spec_logLikeDisc odds_of cs'.
Proof.
  intros HP. unfold spec_logLikeDisc.
  pose proof (unique_perm codes_eqb codes_eqb_spec cs cs' HP) as HU.
  rewrite (map_ext (fun c => (lgamma (INR (count codes_eqb cs c) + spec_alpha odds_of c)
                              - lgamma (spec_alpha odds_of c))%R)
                   (fun c => (lgamma (INR (count codes_eqb cs' c) + spec_alpha odds_of c)
                              - lgamma (spec_alpha odds_of c))%R))
    by (intros c; now rewrite (count_perm codes_eqb cs cs' c HP)).
  rewrite (map_ext (fun c => (INR (count codes_eqb cs c) + spec_alpha odds_of c)%R)
                   (fun c => (INR (count codes_eqb cs' c) + spec_alpha odds_of c)%R))
    by (intros c; now rewrite (count_perm codes_eqb cs cs' c HP)).
  f_equal; [| f_equal]; apply reduce_sum_perm; now apply Permutation_map.
Qed.

Lemma map_nth_seq {A} (d : A) (l : list A) :
  map (fun j => nth j l d) (seq 0 (List.length l)) = l.
Proof.
  apply (nth_ext _ _ d d).
  - now rewrite length_map, length_seq.
  - intros i Hi. rewrite length_map, length_seq in Hi.
    rewrite (nth_indep _ d (nth 0 l d)) by (rewrite length_map, length_seq; lia).
    rewrite (map_nth (fun j => nth j l d) (seq 0 (List.length l)) 0%nat i).
    now rewrite seq_nth.
Qed.

Lemma categories_reordered (n : nat) (sigma : list nat) (G : list (list Z)) :
  List.length sigma = n ->
  categories n (reorder_observations sigma G)
  = map (column 0%Z (mkTensor n G)) sigma.
Proof.
  intros Hlen. unfold categories.
  rewrite <- (map_nth_seq 0%nat sigma) at 2. rewrite Hlen, map_map.
  apply map_ext_in. intros i Hi. apply in_seq in Hi.
  unfold column, reorder_observations. simpl trows. rewrite map_map.
  apply map_ext. intros r.
  rewrite (nth_indep _ 0%Z (nth 0 r 0%Z)) by (rewrite length_map; lia).
  apply (map_nth (fun j => nth j r 0%Z) sigma 0%nat i).
Qed.

(** X18: [logLikeDisc] of a selection of SNP rows does not depend on the
    order of the observations: taking the columns in any rearrangement
    [sigma] of [0 .. n-1] gives the same value. *)
Theorem logLikeDisc_observation_order :
  forall (ds : Dataset) (n : nat) (sigma : list nat) (G : list (list Z)),
    Forall (fun r => List.length r = n) G ->
    Forall (Forall (fun z => code_ok z = true)) G ->
    Permutation sigma (seq 0 n) ->
    logLikeDisc ds (render n (reorder_observations sigma G))
    = logLikeDisc ds (render n G).
Proof.
  intros ds n sigma G Hshape Hcodes HP.
  assert (Hlen : List.length sigma = n)
    by (rewrite (Permutation_length HP); apply length_seq).
  assert (Hshape' : Forall (fun r => List.length r = n) (reorder_observations sigma G)).
  { apply Forall_forall. intros r Hr. apply in_map_iff in Hr.
    destruct Hr as (r0 & <- & _). now rewrite length_map. }
  assert (Hcodes' : Forall (Forall (fun z => code_ok z = true))
                           (reorder_observations sigma G)).
  { apply Forall_forall. intros r Hr. apply in_map_iff in Hr.
    destruct Hr as (r0 & <- & Hr0). apply Forall_forall. intros z Hz.
    apply in_map_iff in Hz. destruct Hz as (j & <- & Hj).
    rewrite Forall_forall in Hshape, Hcodes.
    specialize (Hshape r0 Hr0). specialize (Hcodes r0 Hr0).
    rewrite Forall_forall in Hcodes. apply Hcodes, nth_In.
    apply (Permutation_in _ HP), in_seq in Hj. lia. }
  rewrite (logLikeDisc_categories ds n _ Hshape' Hcodes').
  rewrite (logLikeDisc_categories ds n G Hshape Hcodes).
  f_equal. apply spec_logLikeDisc_perm.
  rewrite (categories_reordered n sigma G Hlen). unfold categories.
  now apply Permutation_map.
Qed.

(** ** The arguments of the logarithms and of [lgamma] *)

Open Scope R_scope.

Lemma reduce_sum_squares_nonneg (m : R) (l : list R) :
  0 <= reduce_sum (map (fun y => Rsqr (y - m)) l).
Proof.
  induction l as [| a l IH]; simpl; [lra |].
  pose proof (Rle_0_sqr (a - m)). lra.
Qed.

Lemma NU0_at_least_one (ds : Dataset) : 1 <= NU0 ds.
Proof.
  unfold NU0. rewrite plus_INR. simpl (INR 1).
  pose proof (pos_INR (PhenoNum ds)). lra.
Qed.

(** X19: on one trait row the logarithm of [func1] is taken of half a number
    [nuVar] that is at least [NU0], itself at least 1, whatever the data. *)
Theorem logLikeCont_log_argument :
  forall (ds : Dataset) (n : nat) (ys : list R),
    exists nuVar : R,
      1 <= NU0 ds <= nuVar /\
      logLikeCont ds (mkTensor n [ys])
      = -1 * ln (2 * PI) * INR n / 2
        + ln (KAPPA0 / (KAPPA0 + INR n)) / 2 + lgamma ((NU0 ds + INR n) / 2)
        + (-1 * lgamma (NU0 ds / 2) + ln (NU0 ds * Rsqr 1 / 2) * NU0 ds / 2
           - ln (nuVar / 2) * (NU0 ds + INR n) / 2).
Proof.
  intros ds n ys. unfold logLikeCont, func1, shape0, shape1. simpl.
  eexists. split; [| reflexivity].
  split; [apply NU0_at_least_one |].
  set (means := reduce_mean (mkTensor n [ys])).
  pose proof (reduce_sum_squares_nonneg means (ys ++ [])) as Hsq.
  pose proof (Rle_0_sqr (means - MU0 ds)) as Hmu.
  pose proof (pos_INR n) as Hn.
  assert (Hfrac : 0 <= INR n / (KAPPA0 + INR n)).
  { unfold KAPPA0. apply Rmult_le_pos; [assumption |].
    left. apply Rinv_0_lt_compat. lra. }
  pose proof (Rmult_le_pos _ _ Hfrac Hmu) as Hprod.
  unfold Rsqr at 1. unfold KAPPA0 at 1. lra.
Qed.

(** X20: for a minor allele frequency in (0,1) the three entries of [Odds]
    lie in (0,1) and add up to 1, and the pseudo-count of a category of codes
    1, 2, 3 lies in (0,1]. *)
Theorem Odds_distribution :
  forall (ds : Dataset),
    0 < MAF ds < 1 ->
    Forall (fun o => 0 < o < 1) (Odds ds) /\
    reduce_sum (Odds ds) = 1 /\
    forall c, Forall (fun z => code_ok z = true) c ->
              0 < spec_alpha (odds_below_code ds) c <= 1.
Proof.
  intros ds HM. unfold Odds.
  assert (H1 : 0 < (1 - MAF ds) ^ 2 < 1) by (split; nra).
  assert (H2 : 0 < 2 * MAF ds * (1 - MAF ds) < 1) by (split; nra).
  assert (H3 : 0 < MAF ds ^ 2 < 1) by (split; nra).
  split; [repeat constructor; lra |]. split; [simpl; ring |].
  intros c Hc. unfold spec_alpha.
  induction Hc as [| z c Hz _ IH]; simpl; [lra |].
  assert (Ho : 0 < odds_below_code ds z < 1).
  { unfold code_ok in Hz. apply andb_true_iff in Hz. destruct Hz as [Ha Hb].
    apply Z.leb_le in Ha, Hb.
    assert (E : z = 1%Z \/ z = 2%Z \/ z = 3%Z) by lia.
    destruct E as [-> | [-> | ->]]; unfold odds_below_code, Odds; simpl; lra. }
  destruct IH as [IH1 IH2]. split; nra.
Qed.

Lemma reduce_sum_repeat (c : R) (n : nat) :
  reduce_sum (repeat c n) = INR n * c.
Proof.
  induction n as [| n IH]; [simpl; ring |].
  change (repeat c (S n)) with (c :: repeat c n). simpl reduce_sum.
  rewrite IH, S_INR. ring.
Qed.

Lemma squares_of_repeat (c : R) (n : nat) :
  reduce_sum (map (fun y => Rsqr (y - c)) (repeat c n)) = 0.
Proof.
  induction n as [| n IH]; simpl; [reflexivity |].
  rewrite IH. unfold Rsqr. ring.
Qed.

(** X21: on a row of [n >= 1] equal values [c] the sum of squares of [func1]
    vanishes, and the data enter the result only through [c]:
    [nuVar = NU0 + n / (1 + n) * (c - MU0)^2]. *)
Theorem logLikeCont_constant_row :
  forall (ds : Dataset) (n : nat) (c : R),
    (1 <= n)%nat ->
    logLikeCont ds (mkTensor n [repeat c n])
    = -1 * ln (2 * PI) * INR n / 2
      + ln (KAPPA0 / (KAPPA0 + INR n)) / 2 + lgamma ((NU0 ds + INR n) / 2)
      + (-1 * lgamma (NU0 ds / 2) + ln (NU0 ds * Rsqr 1 / 2) * NU0 ds / 2
         - ln ((NU0 ds + INR n / (1 + INR n) * Rsqr (c - MU0 ds)) / 2)
           * (NU0 ds + INR n) / 2).
Proof.
  intros ds n c Hn. unfold logLikeCont, func1, reduce_mean, shape0, shape1.
  simpl trows. simpl ncols. simpl List.length.
  rewrite Nat.eqb_refl, concat_single, Nat.mul_1_l, reduce_sum_repeat.
  assert (Hpos : 0 < INR n) by (apply lt_0_INR; lia).
  replace (INR n * c / INR n) with c by (field; lra).
  rewrite squares_of_repeat. unfold KAPPA0.
  replace (NU0 ds * Rsqr 1 + 0 + 1 * (INR n / (1 + INR n) * Rsqr (c - MU0 ds)))
    with (NU0 ds + INR n / (1 + INR n) * Rsqr (c - MU0 ds))
    by (unfold Rsqr; ring).
  reflexivity.
Qed.

Close Scope R_scope.

(** ** The sizes of the clusters *)

Lemma where_equal_length {A} (eqb : A -> A -> bool) (v : list A) (x : A) :
  List.length (where_equal eqb v x) = List.length (filter (fun a => eqb a x) v).
Proof.
  unfold where_equal. rewrite length_map.
  generalize 0%nat. induction v as [| a v IH]; intros s; [reflexivity |].
  simpl. destruct (eqb a x); simpl; now rewrite IH.
Qed.

Lemma bearers_occurrences (I : list Z) (v : Z) :
  bearers I v = List.length (filter (fun a => Z.eqb a v) I).
Proof. apply where_equal_length. Qed.

Lemma bearers_set_at (a : list Z) (p : nat) (y v : Z) :
  (p < List.length a)%nat ->
  (bearers (set_at a p y) v + (if Z.eqb (nth p a 0%Z) v then 1 else 0)
   = bearers a v + (if Z.eqb y v then 1 else 0))%nat.
Proof.
  rewrite !bearers_occurrences. revert p.
  induction a as [| b a IH]; intros [| p] Hp; simpl in *; try lia.
  - destruct (Z.eqb b v), (Z.eqb y v); simpl; lia.
  - specialize (IH p ltac:(lia)).
    destruct (Z.eqb b v); simpl; lia.
Qed.

(** X22: a proposal between two different labels moves exactly one variable:
    the cluster of [x] loses one member, the cluster of [y] gains one, and
    every other cluster keeps its size. *)
Theorem proposal_moves_one_variable :
  forall (Ix : list Z) (draws : list draw) (x y : Z) (Iy : list Z),
    propose Ix draws = Some (x, y, Iy) ->
    x <> y ->
    (bearers Iy x + 1 = bearers Ix x)%nat /\
    bearers Iy y = (bearers Ix y + 1)%nat /\
    forall v, v <> x -> v <> y -> bearers Iy v = bearers Ix v.
Proof.
  intros Ix draws x y Iy H Hxy.
  destruct (proposal_shape Ix draws x y Iy H) as (_ & _ & _ & k & Hk & Hkx & ->).
  split; [| split].
  - pose proof (bearers_set_at Ix k y x Hk) as E. rewrite Hkx in E.
    rewrite Z.eqb_refl in E.
    destruct (Z.eqb_spec y x) as [-> | _]; [contradiction | lia].
  - pose proof (bearers_set_at Ix k y y Hk) as E. rewrite Hkx in E.
    rewrite Z.eqb_refl in E.
    destruct (Z.eqb_spec x y) as [-> | _]; [contradiction | lia].
  - intros v Hvx Hvy.
    pose proof (bearers_set_at Ix k y v Hk) as E. rewrite Hkx in E.
    destruct (Z.eqb_spec x v) as [-> | _]; [contradiction |].
    destruct (Z.eqb_spec y v) as [-> | _]; [contradiction | lia].
Qed.

(** ** The further statements at work on the small run *)

Lemma accept_metropolis_ratio_demo :
  (0 < / 2 < 1)%R /\
  (accept (/ 2) 1 2 = true <-> (/ 2 <= exp (2 - 1))%R).
Proof.
  assert (H : (0 < / 2 < 1)%R) by lra.
  split; [exact H | exact (accept_metropolis_ratio (/ 2) 1 2 H)].
Defined.

Lemma accept_when_not_worse_demo :
  (0 < / 2 < 1)%R /\ (1 <= 2)%R /\ accept (/ 2) 1 2 = true.
Proof.
  assert (H1 : (0 < / 2 < 1)%R) by lra.
  assert (H2 : (1 <= 2)%R) by lra.
  split; [exact H1 |]. split; [exact H2 |].
  exact (accept_when_not_worse (/ 2) 1 2 H1 H2).
Defined.

Lemma selection_splits_cluster_demo :
  well_formed demo = true /\
  List.length [1; 1; 2]%Z = TotalNum demo /\
  exists D C,
    Dxx demo [1; 1; 2]%Z 1 = Some D /\ Cxx demo [1; 1; 2]%Z 1 = Some C /\
    ncols D = ObsNum demo /\ ncols C = ObsNum demo /\
    (shape0 D + shape0 C)%nat = bearers [1; 1; 2]%Z 1.
Proof.
  assert (H1 : well_formed demo = true) by reflexivity.
  assert (H2 : List.length [1; 1; 2]%Z = TotalNum demo) by reflexivity.
  split; [exact H1 |]. split; [exact H2 |].
  exact (selection_splits_cluster demo [1; 1; 2]%Z 1 H1 H2).
Defined.

Lemma absent_label_scores_zero_demo :
  bearers [1; 1; 2]%Z 0 = 0%nat /\
  Dxx demo [1; 1; 2]%Z 0 = Some (mkTensor (ObsNum demo) []) /\
  Cxx demo [1; 1; 2]%Z 0 = Some (mkTensor (ObsNum demo) []) /\
  calcProb demo (mkTensor (ObsNum demo) []) (mkTensor (ObsNum demo) [])
  = Some 0%R.
Proof.
  assert (H : bearers [1; 1; 2]%Z 0 = 0%nat) by reflexivity.
  split; [exact H | exact (absent_label_scores_zero demo [1; 1; 2]%Z 0 H)].
Defined.

Lemma no_label_comes_back_demo :
  let rs := [mkRandomness [mkDraw 0 1 0] (/ 2)%R;
             mkRandomness [mkDraw 2 0 1] (/ 3)%R] in
  exists I', sampler demo rs = Some I' /\
    exists I, sampler demo (firstn 1 rs) = Some I /\ incl I' I.
Proof.
  intros rs.
  assert (H1 : well_formed demo = true) by reflexivity.
  assert (H2 : Forall (fun r => valid_randomness (TotalNum demo) r = true) rs)
    by (repeat constructor).
  destruct (iterate_defined demo rs H1 H2 (arange 3) (arange_ok 3)) as (I' & HI').
  exists I'. split; [exact HI' |].
  exact (no_label_comes_back demo rs 1%nat I' HI').
Defined.

Lemma last_variable_keeps_label_demo :
  let rs := [mkRandomness [mkDraw 0 1 0] (/ 2)%R;
             mkRandomness [mkDraw 2 0 1] (/ 3)%R] in
  (0 < TotalNum demo)%nat /\
  exists I, sampler demo rs = Some I /\ nth 2 I 0%Z = 2%Z.
Proof.
  intros rs.
  assert (H0 : (0 < TotalNum demo)%nat) by (unfold TotalNum; simpl; lia).
  assert (H1 : well_formed demo = true) by reflexivity.
  assert (H2 : Forall (fun r => valid_randomness (TotalNum demo) r = true) rs)
    by (repeat constructor).
  destruct (iterate_defined demo rs H1 H2 (arange 3) (arange_ok 3)) as (I & HI).
  split; [exact H0 |]. exists I. split; [exact HI |].
  exact (last_variable_keeps_label demo rs I H0 HI).
Defined.

Lemma sampler_needs_two_variables_demo :
  let ds := mkDataset 1 0 3 (/ 2)%R [[1; 2; 1]]%Z [] in
  let rs := [mkRandomness [mkDraw 0 1 0] (/ 2)%R] in
  (TotalNum ds < 2)%nat /\ rs <> [] /\ sampler ds rs = None.
Proof.
  intros ds rs.
  assert (H1 : (TotalNum ds < 2)%nat) by (unfold TotalNum; simpl; lia).
  assert (H2 : rs <> []) by discriminate.
  split; [exact H1 |]. split; [exact H2 |].
  exact (sampler_needs_two_variables ds rs H1 H2).
Defined.

Lemma same_label_draw_changes_nothing_demo :
  let Ix := [1; 1; 2]%Z in
  let d := mkDraw 0 1 0 in
  let r := mkRandomness [d] (/ 2)%R in
  well_formed demo = true /\
  List.length Ix = TotalNum demo /\
  valid_draw (List.length Ix) d = true /\
  nth (pos1 d) Ix 0%Z = nth (pos2 d) Ix 0%Z /\
  iteration demo Ix r = Some Ix.
Proof.
  intros Ix d r.
  assert (H1 : well_formed demo = true) by reflexivity.
  assert (H2 : List.length Ix = TotalNum demo) by reflexivity.
  assert (H3 : valid_draw (List.length Ix) d = true) by reflexivity.
  assert (H4 : nth (pos1 d) Ix 0%Z = nth (pos2 d) Ix 0%Z) by reflexivity.
  repeat (split; [assumption |]).
  exact (same_label_draw_changes_nothing demo Ix r d [] H1 H2 eq_refl H3 H4).
Defined.

Lemma logLikeDisc_no_row_demo :
  (1 <= 3)%nat /\ logLikeDisc demo (mkTensor 3 []) = Some 0%R.
Proof.
  assert (H : (1 <= 3)%nat) by lia.
  split; [exact H | exact (logLikeDisc_no_row demo 3 H)].
Defined.

Lemma logLikeDisc_rejects_code_demo :
  let G := [[1; 0; 1]; [3; 2; 3]]%Z in
  Forall (fun r => List.length r = 3%nat) G /\
  Forall (Forall (fun z => in_int32 z = true)) G /\
  In [1; 0; 1]%Z G /\ In 0%Z [1; 0; 1]%Z /\ code_ok 0 = false /\
  logLikeDisc demo (render 3 G) = None.
Proof.
  intros G.
  assert (H1 : Forall (fun r => List.length r = 3%nat) G) by (repeat constructor).
  assert (H2 : Forall (Forall (fun z => in_int32 z = true)) G)
    by (repeat constructor).
  assert (H3 : In [1; 0; 1]%Z G) by (left; reflexivity).
  assert (H4 : In 0%Z [1; 0; 1]%Z) by (right; left; reflexivity).
  assert (H5 : code_ok 0 = false) by reflexivity.
  repeat (split; [assumption |]).
  exact (logLikeDisc_rejects_code demo 3 G [1; 0; 1]%Z 0 H1 H2 H3 H4 H5).
Defined.

Lemma logLikeDisc_counts_every_observation_demo :
  let G := [[1; 2; 1]; [3; 2; 3]]%Z in
  Forall (fun r => List.length r = 3%nat) G /\
  Forall (Forall (fun z => code_ok z = true)) G /\
  list_sum (map (count codes_eqb (categories 3 G))
                (unique codes_eqb (categories 3 G))) = 3%nat.
Proof.
  intros G.
  assert (H1 : Forall (fun r => List.length r = 3%nat) G) by (repeat constructor).
  assert (H2 : Forall (Forall (fun z => code_ok z = true)) G)
    by (repeat constructor).
  repeat (split; [assumption |]).
  exact (proj1 (logLikeDisc_counts_every_observation demo 3 G H1 H2)).
Defined.

Lemma category_index_pipeline_demo :
  let G := [[1; 2; 1]; [3; 2; 3]]%Z in
  Forall (fun r => List.length r = 3%nat) G /\
  Forall (Forall (fun z => in_int32 z = true)) G /\
  snd (unique_with_counts String.eqb (reduce_join (render 3 G)))
  = map (count codes_eqb (categories 3 G)) (unique codes_eqb (categories 3 G)).
Proof.
  intros G.
  assert (H1 : Forall (fun r => List.length r = 3%nat) G) by (repeat constructor).
  assert (H2 : Forall (Forall (fun z => in_int32 z = true)) G)
    by (repeat constructor).
  repeat (split; [assumption |]).
  exact (proj2 (category_index_pipeline 3 G "1"%string H1 H2)).
Defined.

Lemma logLikeDisc_single_category_demo :
  let G := [[1; 1; 1]; [2; 2; 2]]%Z in
  (1 <= 3)%nat /\
  Forall (fun r => List.length r = 3%nat) G /\
  Forall (Forall (fun z => code_ok z = true)) G /\
  (forall c', In c' (categories 3 G) -> c' = [1; 2]%Z) /\
  logLikeDisc demo (render 3 G)
  = Some (- lgamma (spec_alpha (odds_below_code demo) [1; 2]%Z))%R.
Proof.
  intros G.
  assert (H0 : (1 <= 3)%nat) by lia.
  assert (H1 : Forall (fun r => List.length r = 3%nat) G) by (repeat constructor).
  assert (H2 : Forall (Forall (fun z => code_ok z = true)) G)
    by (repeat constructor).
  assert (H3 : forall c', In c' (categories 3 G) -> c' = [1; 2]%Z).
  { intros c' Hc. simpl in Hc.
    destruct Hc as [<- | [<- | [<- | []]]]; reflexivity. }
  repeat (split; [assumption |]).
  exact (logLikeDisc_single_category demo 3 G [1; 2]%Z H0 H1 H2 H3).
Defined.

Lemma traits_beyond_one_are_ignored_demo :
  let C := mkTensor 3 [[1; 2; 3]; [4; 5; 6]]%R in
  (2 <= shape0 C)%nat /\
  (ncols (GeneData demo) <= ncols C)%nat /\
  calcProb demo (GeneData demo) C
  = calcProb demo (GeneData demo) (mkTensor (ncols C) []).
Proof.
  intros C.
  assert (H1 : (2 <= shape0 C)%nat) by (unfold shape0, C; simpl; lia).
  assert (H2 : (ncols (GeneData demo) <= ncols C)%nat) by (simpl; lia).
  split; [exact H1 |]. split; [exact H2 |].
  exact (traits_beyond_one_are_ignored demo (GeneData demo) C H1 H2).
Defined.

Lemma logLikeDepe_one_trait_demo :
  let G := [[1; 2; 1]; [3; 2; 3]]%Z in
  let ys := [1; 2; 3]%R in
  Forall (fun r => List.length r = 3%nat) G /\
  List.length ys = 3%nat /\
  logLikeDepe demo (render 3 G) (mkTensor 3 [ys])
  = (disc <- logLikeDisc demo (render 3 G) ;;
     Some (reduce_sum
             (map (fun c =>
                     logLikeCont demo
                       (mkTensor (List.length (observations_of (categories 3 G) c))
                                 [values_at ys (observations_of (categories 3 G) c)]))
                  (unique codes_eqb (categories 3 G)))
           + disc)%R).
Proof.
  intros G ys.
  assert (H1 : Forall (fun r => List.length r = 3%nat) G) by (repeat constructor).
  assert (H2 : List.length ys = 3%nat) by reflexivity.
  split; [exact H1 |]. split; [exact H2 |].
  exact (logLikeDepe_one_trait demo 3 G ys H1 H2).
Defined.

Lemma logLikeCont_observation_order_demo :
  Permutation [1; 2; 3]%R [2; 1; 3]%R /\
  logLikeCont demo (mkTensor 3 [[2; 1; 3]%R])
  = logLikeCont demo (mkTensor 3 [[1; 2; 3]%R]).
Proof.
  assert (H : Permutation [1; 2; 3]%R [2; 1; 3]%R) by apply perm_swap.
  split; [exact H |].
  exact (logLikeCont_observation_order demo 3 [1; 2; 3]%R [2; 1; 3]%R H).
Defined.

Lemma logLikeDisc_observation_order_demo :
  let G := [[1; 2; 1]; [3; 2; 3]]%Z in
  let sigma := [2; 0; 1]%nat in
  Forall (fun r => List.length r = 3%nat) G /\
  Forall (Forall (fun z => code_ok z = true)) G /\
  Permutation sigma (seq 0 3) /\
  reorder_observations sigma G = [[1; 1; 2]; [3; 3; 2]]%Z /\
  logLikeDisc demo (render 3 (reorder_observations sigma G))
  = logLikeDisc demo (render 3 G).
Proof.
  intros G sigma.
  assert (H1 : Forall (fun r => List.length r = 3%nat) G) by (repeat constructor).
  assert (H2 : Forall (Forall (fun z => code_ok z = true)) G)
    by (repeat constructor).
  assert (H3 : Permutation sigma (seq 0 3)).
  { apply perm_trans with [0; 2; 1]%nat; [apply perm_swap |].
    apply perm_skip, perm_swap. }
  repeat (split; [assumption |]). split; [reflexivity |].
  exact (logLikeDisc_observation_order demo 3 sigma G H1 H2 H3).
Defined.

Lemma Odds_distribution_demo :
  (0 < MAF demo < 1)%R /\ reduce_sum (Odds demo) = 1%R.
Proof.
  assert (H : (0 < MAF demo < 1)%R) by (simpl; lra).
  split; [exact H | exact (proj1 (proj2 (Odds_distribution demo H)))].
Defined.

Lemma logLikeCont_constant_row_demo :
  (1 <= 3)%nat /\
  logLikeCont demo (mkTensor 3 [repeat 5%R 3])
  = (-1 * ln (2 * PI) * INR 3 / 2
     + ln (KAPPA0 / (KAPPA0 + INR 3)) / 2 + lgamma ((NU0 demo + INR 3) / 2)
     + (-1 * lgamma (NU0 demo / 2) + ln (NU0 demo * Rsqr 1 / 2) * NU0 demo / 2
        - ln ((NU0 demo + INR 3 / (1 + INR 3) * Rsqr (5 - MU0 demo)) / 2)
          * (NU0 demo + INR 3) / 2))%R.
Proof.
  assert (H : (1 <= 3)%nat) by lia.
  split; [exact H | exact (logLikeCont_constant_row demo 3 5%R H)].
Defined.

Lemma proposal_moves_one_variable_demo :
  propose (arange 3) [mkDraw 0 1 0] = Some (0%Z, 1%Z, [1; 1; 2]%Z) /\
  0%Z <> 1%Z /\
  (bearers [1; 1; 2]%Z 0 + 1 = bearers (arange 3) 0)%nat /\
  bearers [1; 1; 2]%Z 1 = (bearers (arange 3) 1 + 1)%nat.
Proof.
  assert (H1 : propose (arange 3) [mkDraw 0 1 0] = Some (0%Z, 1%Z, [1; 1; 2]%Z))
    by reflexivity.
  assert (H2 : 0%Z <> 1%Z) by discriminate.
  destruct (proposal_moves_one_variable (arange 3) [mkDraw 0 1 0] 0 1
              [1; 1; 2]%Z H1 H2) as (Ha & Hb & _).
  split; [exact H1 |]. split; [exact H2 |]. split; [exact Ha | exact Hb].
Defined.
